(** * The control-flow graph of the optimizer ([source/opt/cfg.h])

    A shallow embedding of [spvtools::ir::CFG]: the edge table
    ([label2preds_], [id2block_]) with the operations the header defines
    inline, and the traversal and ordering operations whose bodies the
    header only declares. *)

From stdpp Require Import gmap list fin_maps.

Set Default Proof Using "Type".

(** ** Basic blocks *)

(** A block label is a [uint32_t] result id.  The operations below only
    compare labels and use them as map keys. *)
Abbreviation label := N.

(** Modelled from the spec: [basic_block.h] is not part of the sources.  A
    block exposes its identity, the labels its terminator names (zero, one
    or more, in declared order) and, for a header, its declared merge label
    and (loop headers only) its continue label. *)
Record BasicBlock : Type := mkBlock {
  id : label;
  succ_labels : list label;
  merge_label : option label;
  continue_label : option label
}.

#[global] Instance BasicBlock_eq_dec : EqDecision BasicBlock.
Proof. solve_decision. Defined.

#[global] Instance BasicBlock_countable : Countable BasicBlock.
Proof.
  refine (inj_countable'
    (λ b, (id b, succ_labels b, merge_label b, continue_label b))
    (λ t, let '(i, s, m, k) := t in mkBlock i s m k) _).
  by intros [].
Defined.

(** ** Outcomes *)

(** A call either returns, or stops the run: [assert] and the
    [std::out_of_range] of [unordered_map::at] are both hard failures.
    [OutOfFuel] is the bounded loop of the traversal model running dry,
    which no traversal below does ([ComputePostOrderTraversal_fuel],
    [ComputeStructuredOrder_fuel]). *)
Inductive result (A : Type) : Type :=
  | Ok (a : A)
  | AssertFail
  | OutOfFuel.
Arguments Ok {A} a.
Arguments AssertFail {A}.
Arguments OutOfFuel {A}.

#[global] Instance result_ret : MRet result := λ A a, Ok a.
#[global] Instance result_bind : MBind result := λ A B f r,
  match r with
  | Ok a => f a
  | AssertFail => AssertFail
  | OutOfFuel => OutOfFuel
  end.

#[global] Instance result_fmap : FMap result := λ A B f r,
  match r with
  | Ok a => Ok (f a)
  | AssertFail => AssertFail
  | OutOfFuel => OutOfFuel
  end.

(** ** The CFG object *)

Record CFG : Type := mkCFG {
  (* Map from block to its structured successor blocks. *)
  block2structured_succs_ : gmap BasicBlock (list BasicBlock);
  (* Extra block whose successors are all blocks with no predecessors. *)
  pseudo_entry_block_ : BasicBlock;
  (* Augmented CFG exit block. *)
  pseudo_exit_block_ : BasicBlock;
  (* Map from block's label id to its predecessor blocks ids. *)
  label2preds_ : gmap label (list label);
  (* Map from block's label id to block. *)
  id2block_ : gmap label BasicBlock
}.

Definition set_label2preds (m : gmap label (list label)) (c : CFG) : CFG :=
  mkCFG (block2structured_succs_ c) (pseudo_entry_block_ c)
        (pseudo_exit_block_ c) m (id2block_ c).

Definition set_id2block (m : gmap label BasicBlock) (c : CFG) : CFG :=
  mkCFG (block2structured_succs_ c) (pseudo_entry_block_ c)
        (pseudo_exit_block_ c) (label2preds_ c) m.

Definition set_block2structured_succs
    (m : gmap BasicBlock (list BasicBlock)) (c : CFG) : CFG :=
  mkCFG m (pseudo_entry_block_ c) (pseudo_exit_block_ c)
        (label2preds_ c) (id2block_ c).

(** Member functions run in a state and failure monad over the object. *)
Definition M (A : Type) : Type := CFG → result (A * CFG).

#[global] Instance M_ret : MRet M := λ A a c, Ok (a, c).
#[global] Instance M_bind : MBind M := λ A B f m c,
  match m c with
  | Ok (a, c') => f a c'
  | AssertFail => AssertFail
  | OutOfFuel => OutOfFuel
  end.

Definition get : M CFG := λ c, Ok (c, c).
Definition modify (f : CFG → CFG) : M unit := λ c, Ok (tt, f c).
Definition assert_fail {A} : M A := λ _, AssertFail.

Fixpoint for_each {A} (l : list A) (f : A → M unit) : M unit :=
  match l with
  | [] => mret tt
  | x :: l' => f x ;; for_each l' f
  end.

(** Modelled from the spec: [BasicBlock::ForEachSuccessorLabel] lives in
    [basic_block.h]; it calls [f] on each label the terminator names, in
    declared order. *)
Definition ForEachSuccessorLabel (bb : BasicBlock) (f : label → M unit)
    : M unit :=
  for_each (succ_labels bb) f.

(** ** The edge table, as the header defines it *)

(** [std::find] followed by [erase] of the iterator found. *)
Fixpoint erase_first (x : label) (l : list label) : list label :=
  match l with
  | [] => []
  | y :: l' => if decide (y = x) then l' else y :: erase_first x l'
  end.

Definition preds (blk_id : label) : M (list label) :=
  c ← get;
  match label2preds_ c !! blk_id with
  | Some l => mret l
  | None => assert_fail
  end.

Definition block (blk_id : label) : M BasicBlock :=
  c ← get;
  match id2block_ c !! blk_id with
  | Some b => mret b
  | None => assert_fail
  end.

Definition pseudo_entry_block : M BasicBlock :=
  c ← get; mret (pseudo_entry_block_ c).

Definition pseudo_exit_block : M BasicBlock :=
  c ← get; mret (pseudo_exit_block_ c).

(** What a [BasicBlock*] holds, as far as the two predicates below look at
    it: the address of the member [pseudo_entry_block_], the address of
    the member [pseudo_exit_block_], or the address of a block that is not
    a member of the object.  The two members are distinct objects, so
    their addresses differ from each other and from every other block's,
    whatever the blocks hold. *)
Inductive block_address : Type :=
  | pseudo_entry_address
  | pseudo_exit_address
  | other_block_address (a : N).

#[global] Instance block_address_eq_dec : EqDecision block_address.
Proof. solve_decision. Defined.

(** [block_ptr == &pseudo_entry_block_]: the addresses are compared, not
    what the blocks hold. *)
Definition IsPseudoEntryBlock (block_ptr : block_address) : M bool :=
  mret (bool_decide (block_ptr = pseudo_entry_address)).

(** [block_ptr == &pseudo_exit_block_]. *)
Definition IsPseudoExitBlock (block_ptr : block_address) : M bool :=
  mret (bool_decide (block_ptr = pseudo_exit_address)).

(** [label2preds_[succ_blk_id].push_back(pred_blk_id)]: [operator[]]
    creates an empty list for a key that has none. *)
Definition AddEdge (pred_blk_id succ_blk_id : label) : M unit :=
  modify (λ c,
    set_label2preds
      (<[succ_blk_id :=
           default [] (label2preds_ c !! succ_blk_id) ++ [pred_blk_id]]>
         (label2preds_ c)) c).

Definition RemoveEdge (pred_blk_id succ_blk_id : label) : M unit :=
  c ← get;
  match label2preds_ c !! succ_blk_id with
  | None => mret tt
  | Some preds_list =>
      modify (set_label2preds
        (<[succ_blk_id := erase_first pred_blk_id preds_list]>
           (label2preds_ c)))
  end.

Definition RemoveSuccessorEdges (bb : BasicBlock) : M unit :=
  ForEachSuccessorLabel bb (λ succ_id, RemoveEdge (id bb) succ_id).

Definition ForgetBlock (blk : BasicBlock) : M unit :=
  modify (λ c, set_id2block (delete (id blk) (id2block_ c)) c) ;;
  modify (λ c, set_label2preds (delete (id blk) (label2preds_ c)) c) ;;
  RemoveSuccessorEdges blk.

(** The labels a block names as a target: those of its terminator and
    those of its merge declaration. *)
Definition target_labels (blk : BasicBlock) : list label :=
  succ_labels blk ++ option_list (merge_label blk)
                  ++ option_list (continue_label blk).

(** Modelled from the spec: [CFG::AddEdges] is declared in the header and
    defined in [cfg.cpp].  An edge is added for every label the block's
    terminator or merge declaration names as a target.  The block's own
    predecessor list is created when it has none: a registered block has
    a list, possibly empty, and [ForgetBlock] removes it. *)
Definition AddEdges (blk : BasicBlock) : M unit :=
  modify (λ c,
    set_label2preds
      (<[id blk := default [] (label2preds_ c !! id blk)]> (label2preds_ c))
      c) ;;
  for_each (target_labels blk) (λ succ_id, AddEdge (id blk) succ_id).

Definition RegisterBlock (blk : BasicBlock) : M unit :=
  modify (λ c, set_id2block (<[id blk := blk]> (id2block_ c)) c) ;;
  AddEdges blk.

(** ** Construction *)

(** A function is its sequence of blocks, a module its sequence of
    functions. *)
Abbreviation ir_Function := (list BasicBlock) (only parsing).
Abbreviation ir_Module := (list (list BasicBlock)) (only parsing).

(** A pseudo block: a label and nothing else.  The labels of the two
    pseudo blocks are not fixed by the header and are parameters. *)
Definition pseudo_block (l : label) : BasicBlock := mkBlock l [] None None.

(** Modelled from the spec: the members as the constructor [CFG::CFG]
    (defined in [cfg.cpp]) initialises them; the identity map holds the two
    pseudo blocks besides the registered ones. *)
Definition initial_cfg (entry_id exit_id : label) : CFG :=
  mkCFG ∅ (pseudo_block entry_id) (pseudo_block exit_id) ∅
        (<[exit_id := pseudo_block exit_id]>
           (<[entry_id := pseudo_block entry_id]> ∅)).

(** The predecessor set of [blk] is empty. *)
Definition has_no_preds (c : CFG) (blk : BasicBlock) : Prop :=
  default [] (label2preds_ c !! id blk) = [].

#[global] Instance has_no_preds_dec c blk : Decision (has_no_preds c blk).
Proof. unfold has_no_preds. apply _. Defined.

(** Modelled from the spec: part of the constructor [CFG::CFG] (defined in
    [cfg.cpp]).  Every block of the function with an empty predecessor set
    is computed and gets an edge from the pseudo-entry; every block whose
    terminator names no successor gets an edge to the pseudo-exit. *)
Definition hook_pseudo_blocks (fn : ir_Function) : M unit :=
  c ← get;
  for_each (filter (has_no_preds c) fn)
    (λ blk, AddEdge (id (pseudo_entry_block_ c)) (id blk)) ;;
  for_each (filter (λ blk, succ_labels blk = []) fn)
    (λ blk, AddEdge (id blk) (id (pseudo_exit_block_ c))).

(** Modelled from the spec: part of the constructor [CFG::CFG] (defined in
    [cfg.cpp]).  The blocks of a function are registered, then hooked. *)
Definition build_function (fn : ir_Function) : M unit :=
  for_each fn RegisterBlock ;; hook_pseudo_blocks fn.

(** Modelled from the spec: the constructor [CFG::CFG] is defined in
    [cfg.cpp]; it walks the functions of the module. *)
Definition construct (entry_id exit_id : label) (module : ir_Module)
    : result (unit * CFG) :=
  for_each module build_function (initial_cfg entry_id exit_id).

(** ** Traversal *)

(** A computation that does not touch the object. *)
Definition lift_result {A} (r : result A) : M A :=
  λ c, a ← r; Ok (a, c).

(** The value of a query that leaves the object as it is. *)
Definition query {A} (m : M A) (c : CFG) : result A :=
  '(a, _) ← m c; Ok a.

(** Modelled from the spec: the traversal engine is defined in [cfg.cpp].
    An iterative depth-first search with an explicit work stack and a seen
    set: the block on top of the stack either has a successor not yet seen,
    which is marked and pushed, or is finished, and then it is popped and
    appended to the order.  Each round either marks a block or pops one, so
    the loop is bounded by twice the number of blocks. *)
Fixpoint dfs_loop (succs : BasicBlock → result (list BasicBlock))
    (fuel : nat) (stack : list BasicBlock) (seen : gset BasicBlock)
    (order : list BasicBlock) : result (list BasicBlock * gset BasicBlock) :=
  match fuel with
  | O => OutOfFuel
  | S fuel' =>
      match stack with
      | [] => Ok (order, seen)
      | bb :: rest =>
          ss ← succs bb;
          match list_find (λ sb, sb ∉ seen) ss with
          | Some (_, sb) =>
              dfs_loop succs fuel' (sb :: stack) ({[sb]} ∪ seen) order
          | None => dfs_loop succs fuel' rest seen (order ++ [bb])
          end
      end
  end.

(** Modelled from the spec: the bound of the loop of the traversal, two
    rounds for each registered block and for the start block. *)
Definition traversal_fuel (c : CFG) : nat := 2 * size (id2block_ c) + 2.

(** Modelled from the spec: the traversal (defined in [cfg.cpp]) follows
    real successor edges, the blocks registered under the labels the
    terminator names; [block] fails on a label that is not registered. *)
Definition real_succs (c : CFG) (bb : BasicBlock)
    : result (list BasicBlock) :=
  query (mapM block (succ_labels bb)) c.

(** Modelled from the spec: [ComputePostOrderTraversal] is declared in
    the header and defined in [cfg.cpp].  It computes the post-order
    traversal of the cfg starting at [bb] skipping nodes in [seen]; the
    order of the traversal is appended to [order], and all nodes in the
    traversal are added to [seen]. *)
Definition ComputePostOrderTraversal (bb : BasicBlock)
    (order : list BasicBlock) (seen : gset BasicBlock)
    : M (list BasicBlock * gset BasicBlock) :=
  c ← get;
  lift_result
    (dfs_loop (real_succs c) (traversal_fuel c) [bb] ({[bb]} ∪ seen) order).

(** Modelled from the spec: [ForEachBlockInPostOrder] is declared in the
    header and defined in [cfg.cpp]; it applies [f] to the blocks in post
    order starting with [bb].  The visitor is a function of the block and
    of whatever it accumulates. *)
Definition ForEachBlockInPostOrder {S} (bb : BasicBlock)
    (f : BasicBlock → S → S) (s0 : S) : M S :=
  '(po, _) ← ComputePostOrderTraversal bb [] ∅;
  mret (foldl (λ s b, f b s) s0 po).

(** Modelled from the spec: [ForEachBlockInReversePostOrder] is declared
    in the header and defined in [cfg.cpp]; the post-order is computed once
    and walked from its back to its front. *)
Definition ForEachBlockInReversePostOrder {S} (bb : BasicBlock)
    (f : BasicBlock → S → S) (s0 : S) : M S :=
  '(po, _) ← ComputePostOrderTraversal bb [] ∅;
  mret (foldr f s0 po).

(** The visitor that records the blocks it is given, in order. *)
Definition record_visit (b : BasicBlock) (trace : list BasicBlock)
    : list BasicBlock :=
  trace ++ [b].

(** Modelled from the spec: [FindReachableBlocks] is defined in [cfg.cpp];
    it collects the blocks the traversal engine delivers. *)
Definition FindReachableBlocks (start : BasicBlock) : M (gset BasicBlock) :=
  ForEachBlockInReversePostOrder start (λ bb s, {[bb]} ∪ s) ∅.

(** ** Structured order *)

(** Modelled from the spec: the labels of the structured successors of a
    block, computed in [cfg.cpp]: its merge label if present, then its
    continue label if present, then the terminator's targets in declared
    order; duplicates are kept. *)
Definition structured_labels (blk : BasicBlock) : list label :=
  option_list (merge_label blk) ++ option_list (continue_label blk)
                                ++ succ_labels blk.

(** Modelled from the spec: [ComputeStructuredSuccessors] is declared in
    the header and defined in [cfg.cpp]; the cache is rebuilt for the
    blocks of [func], each label resolved through [block]. *)
Definition ComputeStructuredSuccessors (func : ir_Function) : M unit :=
  modify (set_block2structured_succs ∅) ;;
  for_each func (λ blk,
    ss ← mapM block (structured_labels blk);
    modify (λ c,
      set_block2structured_succs (<[blk := ss]> (block2structured_succs_ c))
                                 c)).

(** Modelled from the spec: the structured successors of a block are read
    from the cache; a block without an entry has none. *)
Definition structured_succs (c : CFG) (bb : BasicBlock)
    : result (list BasicBlock) :=
  Ok (default [] (block2structured_succs_ c !! bb)).

(** Modelled from the spec: [ComputeStructuredOrder] is declared in the
    header and defined in [cfg.cpp]: a reverse post-order depth-first
    traversal over the structured successors, starting at [root], appended
    to [order]. *)
Definition ComputeStructuredOrder (func : ir_Function) (root : BasicBlock)
    (order : list BasicBlock) : M (list BasicBlock) :=
  ComputeStructuredSuccessors func ;;
  c ← get;
  '(po, _) ← lift_result
    (dfs_loop (structured_succs c) (traversal_fuel c) [root] {[root]} []);
  mret (order ++ reverse po).

(** ** Call sequences *)

(** The mutations a pass issues on the edge table. *)
Inductive op : Type :=
  | OpRegisterBlock (blk : BasicBlock)
  | OpForgetBlock (blk : BasicBlock)
  | OpAddEdge (pred_blk_id succ_blk_id : label)
  | OpRemoveEdge (pred_blk_id succ_blk_id : label).

Definition run_op (o : op) : M unit :=
  match o with
  | OpRegisterBlock blk => RegisterBlock blk
  | OpForgetBlock blk => ForgetBlock blk
  | OpAddEdge p s => AddEdge p s
  | OpRemoveEdge p s => RemoveEdge p s
  end.

Definition run_ops (ops : list op) : M unit := for_each ops run_op.

(** [blk_id] was registered by [ops] and no later call forgot it. *)
Definition live_after (ops : list op) (blk_id : label) : Prop :=
  ∃ ops1 blk ops2,
    ops = ops1 ++ OpRegisterBlock blk :: ops2 ∧ id blk = blk_id ∧
    ∀ blk', OpForgetBlock blk' ∈ ops2 → id blk' ≠ blk_id.

(** [RegisterBlock] was never called on [blk_id]. *)
Definition never_registered (ops : list op) (blk_id : label) : Prop :=
  ∀ blk, OpRegisterBlock blk ∈ ops → id blk ≠ blk_id.

(** Number of times [x] occurs in [l]. *)
Definition occ (x : label) (l : list label) : nat := count_occ N.eq_dec l x.
Arguments occ : simpl never.

(** An object with nothing registered. *)
Definition empty_cfg : CFG :=
  mkCFG ∅ (pseudo_block 0) (pseudo_block 0) ∅ ∅.

(** ** The loop of the spec's scenario *)

Module Scenario.

Definition A := mkBlock 1 [2%N] None None.
Definition B := mkBlock 2 [3%N] (Some 4%N) (Some 3%N).
Definition C := mkBlock 3 [2%N; 4%N] None None.
Definition D := mkBlock 4 [] None None.
Definition func : ir_Function := [A; B; C; D].
Definition cfg : CFG :=
  match construct 0 1000 [func] with
  | Ok (_, c) => c
  | _ => initial_cfg 0 1000
  end.

End Scenario.

(** ** A selection nested in a loop *)

(** Block 2 heads a loop with merge 7 and continue 6; block 3 heads a
    selection with merge 5; block 5 leaves the loop or continues. *)
Module Nested.

Definition entry := mkBlock 1 [2%N] None None.
Definition loop_header := mkBlock 2 [3%N] (Some 7%N) (Some 6%N).
Definition sel_header := mkBlock 3 [4%N; 5%N] (Some 5%N) None.
Definition then_block := mkBlock 4 [5%N] None None.
Definition sel_merge := mkBlock 5 [6%N; 7%N] None None.
Definition continue_block := mkBlock 6 [2%N] None None.
Definition loop_merge := mkBlock 7 [] None None.
Definition func : ir_Function :=
  [entry; loop_header; sel_header; then_block; sel_merge; continue_block;
   loop_merge].
Definition cfg : CFG :=
  match construct 0 1000 [func] with
  | Ok (_, c) => c
  | _ => initial_cfg 0 1000
  end.

End Nested.

(** * The vocabulary of the properties *)

(** ** Predecessor lists *)

(** The predecessor list of [k], empty when it has none. *)
Definition pred_list (c : CFG) (k : label) : list label :=
  default [] (label2preds_ c !! k).

(** The edges into [k] that registering the blocks of [fn] records. *)
Definition incoming (fn : list BasicBlock) (k : label) : list label :=
  fn ≫= λ blk, replicate (occ k (target_labels blk)) (id blk).

(** The members of the object that edge mutations leave alone. *)
Definition same_pseudo_blocks (c c' : CFG) : Prop :=
  pseudo_entry_block_ c' = pseudo_entry_block_ c ∧
  pseudo_exit_block_ c' = pseudo_exit_block_ c.

(** The predecessor lists hold [blk] no more often than its terminator
    names their block. *)
Definition edges_in_sync (c : CFG) (blk : BasicBlock) : Prop :=
  map_Forall
    (λ s l, s = id blk ∨ occ (id blk) l ≤ occ s (succ_labels blk))
    (label2preds_ c).

#[global] Instance edges_in_sync_dec c blk : Decision (edges_in_sync c blk).
Proof. unfold edges_in_sync. apply _. Defined.

(** The claim of C1, as the spec has it: once a registered block is
    forgotten, its two map entries are gone and no predecessor list shows
    it. *)
Definition forget_block_hides_block : Prop :=
  ∀ (ops : list op) (c : CFG) (blk : BasicBlock),
    run_ops ops empty_cfg = Ok (tt, c) →
    id2block_ c !! id blk = Some blk →
    ∃ c', ForgetBlock blk c = Ok (tt, c') ∧
      id2block_ c' !! id blk = None ∧
      label2preds_ c' !! id blk = None ∧
      ∀ s l, preds s c' = Ok (l, c') → id blk ∉ l.

(** A parallel edge added by hand. *)
Module ParallelEdge.

Definition b1 : BasicBlock := mkBlock 1 [2%N] None None.
Definition b2 : BasicBlock := mkBlock 2 [] None None.

(** Both blocks registered, and a second edge from 1 to 2 added by hand. *)
Definition calls : list op :=
  [OpRegisterBlock b1; OpRegisterBlock b2; OpAddEdge 1 2].

Definition cfg : CFG :=
  set_label2preds (<[2%N := [1%N; 1%N]]> (<[1%N := []]> ∅))
    (set_id2block (<[2%N := b2]> (<[1%N := b1]> ∅)) empty_cfg).

(** The two blocks registered, with the one edge of the terminator. *)
Definition synced : CFG :=
  set_label2preds (<[2%N := [1%N]]> (<[1%N := []]> ∅)) cfg.

End ParallelEdge.

(** ** The claims on unregistered ids *)

(** The claim of C9, as the spec has it: an edge mutation naming an id that
    is not registered stops with a hard failure. *)
Definition edge_mutation_checks_registration : Prop :=
  ∀ (c : CFG) (pred_blk_id succ_blk_id : label),
    id2block_ c !! pred_blk_id = None ∨ id2block_ c !! succ_blk_id = None →
    AddEdge pred_blk_id succ_blk_id c = AssertFail ∧
    RemoveEdge pred_blk_id succ_blk_id c = AssertFail.

(** The claim of C2, as the spec has it, for the ids never registered:
    whatever calls were made, [preds] of an id that [RegisterBlock] was never
    called on stops with a hard failure. *)
Definition preds_fails_when_never_registered : Prop :=
  ∀ (ops : list op) (c : CFG) (blk_id : label),
    run_ops ops empty_cfg = Ok (tt, c) →
    never_registered ops blk_id →
    preds blk_id c = AssertFail.

(** ** Paths, dominance and the rounds of the search *)

(** The successor list the search sees: empty where the lookup fails. *)
Definition succs_of (succs : BasicBlock → result (list BasicBlock))
    (b : BasicBlock) : list BasicBlock :=
  match succs b with Ok l => l | _ => [] end.

(** The edges the search follows. *)
Definition succ_edge (succs : BasicBlock → result (list BasicBlock))
    (x y : BasicBlock) : Prop :=
  y ∈ succs_of succs x.

(** Paths from [start] along the edges [E], written back to front: the
    head is the block the path reaches, the last element is [start]. *)
Inductive rpath (E : relation BasicBlock) (start : BasicBlock)
    : list BasicBlock → Prop :=
  | rpath_start : rpath E start [start]
  | rpath_step p x y :
      rpath E start (x :: p) → E x y → rpath E start (y :: x :: p).

Definition reaches (E : relation BasicBlock) (start x : BasicBlock) : Prop :=
  ∃ p, rpath E start (x :: p).

(** [d] lies on every path from [start] to [x]. *)
Definition dominates (E : relation BasicBlock) (start d x : BasicBlock)
    : Prop :=
  ∀ p, rpath E start (x :: p) → d ∈ x :: p.

Definition strictly_dominates (E : relation BasicBlock)
    (start d x : BasicBlock) : Prop :=
  d ≠ x ∧ dominates E start d x.

(** The strict dominator of [x] that every other one dominates. *)
Definition immediate_dominator (E : relation BasicBlock)
    (start d x : BasicBlock) : Prop :=
  strictly_dominates E start d x ∧
  ∀ d', strictly_dominates E start d' x → dominates E start d' d.

(** [a] occurs in [order] somewhere before [b]. *)
Definition precedes (order : list BasicBlock) (a b : BasicBlock) : Prop :=
  ∃ l1 l2 l3, order = l1 ++ a :: l2 ++ b :: l3.

(** One round of the loop of [dfs_loop], on (stack, seen, order). *)
Inductive dfs_step (succs : BasicBlock → result (list BasicBlock)) :
    list BasicBlock * gset BasicBlock * list BasicBlock →
    list BasicBlock * gset BasicBlock * list BasicBlock → Prop :=
  | dfs_push bb rest seen order ss i sb :
      succs bb = Ok ss →
      list_find (λ sb, sb ∉ seen) ss = Some (i, sb) →
      dfs_step succs (bb :: rest, seen, order)
                     (sb :: bb :: rest, {[sb]} ∪ seen, order)
  | dfs_pop bb rest seen order ss :
      succs bb = Ok ss →
      list_find (λ sb, sb ∉ seen) ss = None →
      dfs_step succs (bb :: rest, seen, order) (rest, seen, order ++ [bb]).

(** What holds of the stack, the seen set and the order in every round. *)
Record dfs_inv (succs : BasicBlock → result (list BasicBlock))
    (start : BasicBlock) (stack : list BasicBlock) (seen : gset BasicBlock)
    (order : list BasicBlock) : Prop := mk_dfs_inv {
  inv_nodup : NoDup (stack ++ order);
  inv_seen : ∀ x, x ∈ seen ↔ x ∈ stack ∨ x ∈ order;
  inv_closed : ∀ x y, x ∈ order → succ_edge succs x y → y ∈ seen;
  inv_path : stack = [] ∨ rpath (succ_edge succs) start stack;
  inv_reach : ∀ x, x ∈ seen → reaches (succ_edge succs) start x;
  inv_start : start ∈ seen
}.

(** [v] is appended to [order] no later than [u]. *)
Definition emitted_by (order : list BasicBlock) (v u : BasicBlock) : Prop :=
  ∃ l1 l2, order = l1 ++ v :: l2 ∧ u ∈ v :: l2.

(** [v] lies on a path without repetition from [start] to [u]. *)
Definition retreating (E : relation BasicBlock) (start u v : BasicBlock)
    : Prop :=
  ∃ p, rpath E start (u :: p) ∧ NoDup (u :: p) ∧ v ∈ u :: p.

(** An edge whose target does not dominate its source. *)
Definition forward_edge (E : relation BasicBlock) (start a b : BasicBlock)
    : Prop :=
  E a b ∧ ¬ dominates E start b a.

(** Every cycle goes through an edge whose target dominates its source. *)
Definition reducible (E : relation BasicBlock) (start : BasicBlock) : Prop :=
  ∀ x, ¬ tc (forward_edge E start) x x.

(** What the search knows of the edges of a finished block: the target was
    finished no later, or it was below the block on the stack. *)
Definition edge_order_inv (succs : BasicBlock → result (list BasicBlock))
    (start : BasicBlock) (order : list BasicBlock) : Prop :=
  ∀ u v, u ∈ order → succ_edge succs u v →
    emitted_by order v u ∨ retreating (succ_edge succs) start u v.

(** Where the search stands with respect to a header [h], the block [m] it
    visits first from [h], and a set [B] of blocks entered through [h]:
    nothing of them seen; [h] just pushed; [m] on the stack above [h];
    [m] finished. *)
Definition merge_phase (h m : BasicBlock) (B : BasicBlock → Prop)
    (stack : list BasicBlock) (seen : gset BasicBlock)
    (order : list BasicBlock) : Prop :=
  ((h ∉ seen) ∧ (m ∉ seen) ∧ ∀ x, B x → x ∉ seen) ∨
  ((∃ rest, stack = h :: rest) ∧ (m ∉ seen) ∧
   ∀ x, B x → x ∈ seen → x = h) ∨
  ((∃ l1 l2, stack = l1 ++ m :: l2 ∧ h ∈ l2) ∧
   ∀ x, B x → x ∈ seen → x = h) ∨
  (m ∈ order ∧ ∀ x, B x → x ∈ order → precedes order m x).

(** ** Real and structured edges *)

(** [y] is the block registered under a label the terminator of [x]
    names. *)
Definition real_edge (c : CFG) (x y : BasicBlock) : Prop :=
  ∃ s, s ∈ succ_labels x ∧ id2block_ c !! s = Some y.

(** Every label the terminator of [x] names is registered. *)
Definition targets_registered (c : CFG) (x : BasicBlock) : Prop :=
  Forall (λ s, is_Some (id2block_ c !! s)) (succ_labels x).

(** Every label named by the terminator of a registered block is
    registered. *)
Definition cfg_closed (c : CFG) : Prop :=
  map_Forall (λ _ x, targets_registered c x) (id2block_ c).

#[global] Instance targets_registered_dec c x :
  Decision (targets_registered c x).
Proof. unfold targets_registered. apply _. Defined.

#[global] Instance cfg_closed_dec c : Decision (cfg_closed c).
Proof. unfold cfg_closed. apply _. Defined.

(** [y] is the block registered under a label that [x], a block of [func],
    names as its merge block, its continue block or a branch target. *)
Definition structured_edge (c : CFG) (func : list BasicBlock)
    (x y : BasicBlock) : Prop :=
  x ∈ func ∧ ∃ s, s ∈ structured_labels x ∧ id2block_ c !! s = Some y.

(** [m] is the block registered under the merge label [h] declares. *)
Definition merge_block (c : CFG) (h m : BasicBlock) : Prop :=
  ∃ ml, merge_label h = Some ml ∧ id2block_ c !! ml = Some m.

(** The body of the construct headed by [h] with merge block [m]: the
    blocks [h] dominates and [m] does not, over the structured edges. *)
Definition construct_body (c : CFG) (func : list BasicBlock)
    (root h m x : BasicBlock) : Prop :=
  dominates (structured_edge c func) root h x ∧
  ¬ dominates (structured_edge c func) root m x.

(** Every label a block of [func] names is registered. *)
Definition labels_registered (c : CFG) (func : list BasicBlock) : Prop :=
  Forall (λ blk, Forall (λ s, is_Some (id2block_ c !! s))
                        (structured_labels blk)) func.

(** A well-structured function: every cycle of structured edges goes
    through an edge back to a dominating block; a reachable header
    dominates its merge block; and no edge leads from a reachable block
    outside the body of its construct to a block of the body other than
    the header. *)
Record well_structured (c : CFG) (func : list BasicBlock)
    (root : BasicBlock) : Prop := mk_well_structured {
  ws_reducible : reducible (structured_edge c func) root;
  ws_merge : ∀ h m,
    h ∈ func → merge_block c h m →
    reaches (structured_edge c func) root h →
    strictly_dominates (structured_edge c func) root h m;
  ws_entry : ∀ h m u x,
    h ∈ func → merge_block c h m →
    reaches (structured_edge c func) root h →
    reaches (structured_edge c func) root u →
    structured_edge c func u x →
    construct_body c func root h m x → x ≠ h →
    construct_body c func root h m u
}.

#[global] Instance labels_registered_dec c func :
  Decision (labels_registered c func).
Proof. unfold labels_registered. apply _. Defined.

(** The claim of C5, as the spec has it: on a well-structured function
    the structured order puts the immediate dominator of a block before it
    and the merge block of a construct after the blocks of its body, and
    holds no block that the branches do not reach from the root. *)
Definition structured_order_excludes_unreachable : Prop :=
  ∀ (c : CFG) (func : list BasicBlock) (root : BasicBlock),
    labels_registered c func →
    (∀ x, rtc (real_edge c) root x → x ∈ func) →
    well_structured c func root →
    ∃ order c', ComputeStructuredOrder func root [] c = Ok (order, c') ∧
      (∀ d x, rtc (real_edge c) root x →
              immediate_dominator (real_edge c) root d x →
              precedes order d x) ∧
      (∀ h m x, h ∈ func → merge_block c h m →
                construct_body c func root h m x → x ∈ order →
                precedes order x m) ∧
      (∀ x, x ∈ order → rtc (real_edge c) root x).

(** A selection whose one branch returns: the header declares the merge
    block 3 and branches to block 2, which names no successor; no branch
    leads to the merge block. *)
Module UnreachableMerge.

Definition header := mkBlock 1 [2%N] (Some 3%N) None.
Definition case_block := mkBlock 2 [] None None.
Definition merge := mkBlock 3 [] None None.
Definition func : ir_Function := [header; case_block; merge].
Definition cfg : CFG :=
  match construct 0 1000 [func] with
  | Ok (_, c) => c
  | _ => initial_cfg 0 1000
  end.

End UnreachableMerge.

(** ** The identity map *)

(** Every block of the identity map sits under its own label. *)
Definition keyed_by_id (c : CFG) : Prop :=
  map_Forall (λ k b, id b = k) (id2block_ c).

#[global] Instance keyed_by_id_dec c : Decision (keyed_by_id c).
Proof. unfold keyed_by_id. apply _. Defined.

(** * Properties *)

Ltac by_computation := apply (bool_decide_unpack _); vm_compute; exact I.

(** ** Running the monad *)

Lemma bind_run {A B} (m : M A) (f : A → M B) c a c' :
  m c = Ok (a, c') → (m ≫= f) c = f a c'.
Proof. intros H. unfold mbind, M_bind. by rewrite H. Qed.

Lemma modify_run f c : modify f c = Ok (tt, f c).
Proof. done. Qed.

Lemma for_each_nil {A} (f : A → M unit) c : for_each [] f c = Ok (tt, c).
Proof. done. Qed.

Lemma for_each_cons {A} (f : A → M unit) x l c c' :
  f x c = Ok (tt, c') → for_each (x :: l) f c = for_each l f c'.
Proof. intros H. simpl. by rewrite (bind_run _ _ _ _ _ H). Qed.

(** ** The edge table *)

Section erase.
Implicit Types (x y : label) (l : list label).

(** The occurrence erased is the first one. *)
Lemma erase_first_split x l :
  x ∈ l →
  ∃ l1 l2, l = l1 ++ x :: l2 ∧ (x ∉ l1) ∧ erase_first x l = l1 ++ l2.
Proof.
  induction l as [|y l IH]; intros Hin; [by apply elem_of_nil in Hin|].
  simpl. case_decide as Hy.
  - subst y. exists [], l. split_and!; [done| |done]. apply not_elem_of_nil.
  - apply elem_of_cons in Hin as [->|Hin]; [done|].
    destruct (IH Hin) as (l1 & l2 & -> & Hn & ->).
    exists (y :: l1), l2. split_and!; [done| |done].
    apply not_elem_of_cons. split; [congruence|done].
Qed.

Lemma occ_nil x : occ x [] = 0.
Proof. done. Qed.

Lemma occ_cons x y l :
  occ x (y :: l) = (if decide (y = x) then 1 else 0) + occ x l.
Proof.
  unfold occ. simpl. destruct (N.eq_dec y x); case_decide; done.
Qed.

Lemma occ_app x l1 l2 : occ x (l1 ++ l2) = occ x l1 + occ x l2.
Proof. apply count_occ_app. Qed.

Lemma occ_zero x l : (occ x l = 0) ↔ (x ∉ l).
Proof.
  unfold occ. rewrite list_elem_of_In. symmetry. apply count_occ_not_In.
Qed.

Lemma occ_pos x l : (0 < occ x l) ↔ (x ∈ l).
Proof.
  unfold occ. rewrite list_elem_of_In. symmetry. apply count_occ_In.
Qed.

Lemma occ_replicate x y n :
  occ x (replicate n y) = if decide (y = x) then n else 0.
Proof.
  induction n as [|n IH]; simpl; [by case_decide|].
  rewrite occ_cons, IH. by case_decide.
Qed.

Lemma occ_erase_first_eq x l : occ x (erase_first x l) = pred (occ x l).
Proof.
  induction l as [|y l IH]; [done|]. simpl. rewrite occ_cons.
  case_decide as Hy; [done|]. rewrite occ_cons, IH.
  by rewrite decide_False.
Qed.

Lemma occ_erase_first_ne x y l : x ≠ y → occ x (erase_first y l) = occ x l.
Proof.
  intros Hne. induction l as [|z l IH]; [done|]. simpl.
  rewrite occ_cons. case_decide as Hz.
  - subst z. by rewrite decide_False.
  - by rewrite occ_cons, IH.
Qed.

Lemma iter_erase_first_comm x n l :
  Nat.iter n (erase_first x) (erase_first x l)
  = erase_first x (Nat.iter n (erase_first x) l).
Proof. induction n as [|n IH]; simpl; [done|]. by rewrite IH. Qed.

Lemma occ_iter_erase_eq x n l :
  occ x (Nat.iter n (erase_first x) l) = occ x l - n.
Proof.
  induction n as [|n IH]; simpl; [lia|].
  rewrite occ_erase_first_eq, IH. lia.
Qed.

Lemma occ_iter_erase_ne x y n l :
  x ≠ y → occ x (Nat.iter n (erase_first y) l) = occ x l.
Proof.
  intros Hne. induction n as [|n IH]; simpl; [done|].
  by rewrite occ_erase_first_ne.
Qed.

End erase.

Section edge_table.
Implicit Types (c : CFG) (blk bb : BasicBlock) (p s k : label).
Implicit Types (l : list label) (m : gmap label (list label)).

Lemma set_label2preds_id c : set_label2preds (label2preds_ c) c = c.
Proof. by destruct c. Qed.

Lemma AddEdge_run p s c :
  AddEdge p s c
  = Ok (tt, set_label2preds
              (<[s := default [] (label2preds_ c !! s) ++ [p]]>
                 (label2preds_ c)) c).
Proof. done. Qed.

Lemma RemoveEdge_run p s c :
  RemoveEdge p s c
  = Ok (tt, set_label2preds (alter (erase_first p) s (label2preds_ c)) c).
Proof.
  unfold RemoveEdge, mbind, M_bind, get.
  destruct (label2preds_ c !! s) as [l|] eqn:Hs.
  - rewrite modify_run. do 3 f_equal. apply map_eq. intros k.
    rewrite lookup_alter, lookup_insert.
    case_decide; [subst k; by rewrite Hs|done].
  - unfold mret, M_ret. do 2 f_equal.
    rewrite <- (set_label2preds_id c) at 1. f_equal.
    apply map_eq. intros k. rewrite lookup_alter.
    case_decide; [subst k; by rewrite Hs|done].
Qed.

Lemma for_each_RemoveEdge p ls c :
  ∃ m', for_each ls (RemoveEdge p) c = Ok (tt, set_label2preds m' c) ∧
    ∀ k, m' !! k
         = Nat.iter (occ k ls) (erase_first p) <$> label2preds_ c !! k.
Proof.
  revert c. induction ls as [|s ls IH]; intros c.
  - exists (label2preds_ c). split.
    + by rewrite for_each_nil, set_label2preds_id.
    + intros k. rewrite occ_nil. simpl. by destruct (label2preds_ c !! k).
  - destruct (IH (set_label2preds (alter (erase_first p) s (label2preds_ c)) c))
      as (m' & Hrun & Hm').
    exists m'. split.
    + rewrite (for_each_cons _ _ _ _ _ (RemoveEdge_run p s c)). by rewrite Hrun.
    + intros k. rewrite Hm'. simpl. rewrite lookup_alter, occ_cons.
      case_decide as Hk; [|done]. subst k.
      destruct (label2preds_ c !! s) as [l|]; [|done]. simpl.
      by rewrite iter_erase_first_comm.
Qed.

Lemma for_each_AddEdge p ls c :
  ∃ m', for_each ls (AddEdge p) c = Ok (tt, set_label2preds m' c) ∧
    ∀ k, m' !! k
         = if decide (k ∈ ls)
           then Some (default [] (label2preds_ c !! k)
                        ++ replicate (occ k ls) p)
           else label2preds_ c !! k.
Proof.
  revert c. induction ls as [|s ls IH]; intros c.
  - exists (label2preds_ c). split.
    + by rewrite for_each_nil, set_label2preds_id.
    + intros k. rewrite decide_False; [done|]. apply not_elem_of_nil.
  - destruct (IH (set_label2preds
        (<[s := default [] (label2preds_ c !! s) ++ [p]]> (label2preds_ c)) c))
      as (m' & Hrun & Hm').
    exists m'. split.
    + rewrite (for_each_cons _ _ _ _ _ (AddEdge_run p s c)). by rewrite Hrun.
    + intros k. rewrite Hm'. simpl. rewrite occ_cons.
      destruct (decide (k = s)) as [->|Hks].
      * rewrite lookup_insert_eq, (decide_True (P := s = s)) by done.
        rewrite (decide_True (P := s ∈ s :: ls)) by (apply elem_of_cons; by left).
        simpl. case_decide as Hin.
        -- by rewrite <- app_assoc.
        -- apply occ_zero in Hin. rewrite Hin. done.
      * rewrite lookup_insert_ne, (decide_False (P := s = k)) by done.
        simpl. case_decide as Hin.
        -- rewrite decide_True; [done|]. apply elem_of_cons. by right.
        -- rewrite decide_False; [done|].
           apply not_elem_of_cons. done.
Qed.

Lemma AddEdges_run blk c :
  ∃ m', AddEdges blk c = Ok (tt, set_label2preds m' c) ∧
    ∀ k, m' !! k
         = if decide (k = id blk ∨ k ∈ target_labels blk)
           then Some (default [] (label2preds_ c !! k)
                        ++ replicate (occ k (target_labels blk)) (id blk))
           else label2preds_ c !! k.
Proof.
  unfold AddEdges.
  set (c1 := set_label2preds
    (<[id blk := default [] (label2preds_ c !! id blk)]> (label2preds_ c)) c).
  destruct (for_each_AddEdge (id blk) (target_labels blk) c1)
    as (m' & Hrun & Hm').
  exists m'. split.
  - rewrite (bind_run _ _ c tt c1) by done. exact Hrun.
  - intros k. rewrite Hm'. subst c1. simpl.
    destruct (decide (k = id blk)) as [->|Hk].
    + rewrite lookup_insert_eq. simpl.
      rewrite (decide_True (P := _ ∨ _)) by by left.
      case_decide as Hin; [done|].
      apply occ_zero in Hin. rewrite Hin. simpl. by rewrite app_nil_r.
    + rewrite lookup_insert_ne by done.
      case_decide as Hin.
      * rewrite decide_True; [done|by right].
      * rewrite decide_False; [done|]. intros [?|?]; done.
Qed.

Lemma RegisterBlock_run blk c :
  ∃ m', RegisterBlock blk c
        = Ok (tt, set_label2preds m'
                    (set_id2block (<[id blk := blk]> (id2block_ c)) c)) ∧
    ∀ k, m' !! k
         = if decide (k = id blk ∨ k ∈ target_labels blk)
           then Some (default [] (label2preds_ c !! k)
                        ++ replicate (occ k (target_labels blk)) (id blk))
           else label2preds_ c !! k.
Proof.
  unfold RegisterBlock.
  set (c1 := set_id2block (<[id blk := blk]> (id2block_ c)) c).
  destruct (AddEdges_run blk c1) as (m' & Hrun & Hm').
  exists m'. split; [|done].
  rewrite (bind_run _ _ c tt c1) by done. by rewrite Hrun.
Qed.

Lemma ForgetBlock_run blk c :
  ∃ m', ForgetBlock blk c
        = Ok (tt, set_label2preds m'
                    (set_id2block (delete (id blk) (id2block_ c)) c)) ∧
    ∀ k, m' !! k
         = if decide (k = id blk) then None
           else Nat.iter (occ k (succ_labels blk)) (erase_first (id blk))
                  <$> label2preds_ c !! k.
Proof.
  unfold ForgetBlock.
  set (c1 := set_id2block (delete (id blk) (id2block_ c)) c).
  set (c2 := set_label2preds (delete (id blk) (label2preds_ c1)) c1).
  destruct (for_each_RemoveEdge (id blk) (succ_labels blk) c2)
    as (m' & Hrun & Hm').
  exists m'. split.
  - rewrite (bind_run _ _ c tt c1) by done.
    rewrite (bind_run _ _ c1 tt c2) by done.
    exact Hrun.
  - intros k. rewrite Hm'. subst c2 c1. simpl.
    rewrite lookup_delete. case_decide as Hk.
    + by rewrite decide_True.
    + by rewrite decide_False.
Qed.

End edge_table.

(** ** Single edge mutations *)

(** C4.  Predecessor lists keep the multiplicity of parallel edges.
    [AddEdge pred succ] appends [pred] at the end of the predecessor list
    of [succ] (starting from an empty list when there is none) and touches
    no other list.  [RemoveEdge pred succ] erases from that list the first
    occurrence of [pred] only: the entries before it and every later
    occurrence stay, so the count of [pred] drops by exactly one (or stays
    at zero) and the count of every other id is unchanged. *)
Theorem AddEdge_RemoveEdge_keep_multiplicity
    (pred_blk_id succ_blk_id : label) (c : CFG) :
  (∃ c', AddEdge pred_blk_id succ_blk_id c = Ok (tt, c') ∧
     label2preds_ c' !! succ_blk_id
       = Some (default [] (label2preds_ c !! succ_blk_id) ++ [pred_blk_id]) ∧
     id2block_ c' = id2block_ c ∧
     ∀ k, k ≠ succ_blk_id → label2preds_ c' !! k = label2preds_ c !! k) ∧
  (∃ c', RemoveEdge pred_blk_id succ_blk_id c = Ok (tt, c') ∧
     label2preds_ c' !! succ_blk_id
       = erase_first pred_blk_id <$> label2preds_ c !! succ_blk_id ∧
     id2block_ c' = id2block_ c ∧
     ∀ k, k ≠ succ_blk_id → label2preds_ c' !! k = label2preds_ c !! k) ∧
  (∀ l1 l2 : list label,
     pred_blk_id ∉ l1 →
     erase_first pred_blk_id (l1 ++ pred_blk_id :: l2) = l1 ++ l2) ∧
  (∀ l : list label,
     occ pred_blk_id (erase_first pred_blk_id l)
       = Nat.pred (occ pred_blk_id l) ∧
     ∀ q, q ≠ pred_blk_id → occ q (erase_first pred_blk_id l) = occ q l).
Proof.
  split_and!.
  - eexists. split; [apply AddEdge_run|]. simpl. split_and!; [|done|].
    + by rewrite lookup_insert_eq.
    + intros k Hk. by rewrite lookup_insert_ne.
  - eexists. split; [apply RemoveEdge_run|]. simpl. split_and!; [|done|].
    + rewrite lookup_alter. by rewrite decide_True.
    + intros k Hk. rewrite lookup_alter. by rewrite decide_False.
  - intros l1 l2 Hn. induction l1 as [|x l1 IH]; simpl.
    + by rewrite decide_True.
    + apply not_elem_of_cons in Hn as [Hx Hn].
      rewrite decide_False by done. by rewrite IH.
  - intros l. split; [apply occ_erase_first_eq|].
    intros q Hq. by apply occ_erase_first_ne.
Qed.

(** C9, refuted: on an object with nothing registered both [AddEdge 1 2]
    and [RemoveEdge 1 2] return. *)
Lemma edge_mutation_unregistered_returns :
  ¬ edge_mutation_checks_registration.
Proof.
  intros H. destruct (H empty_cfg 1%N 2%N) as [Hadd _]; [by left|].
  rewrite AddEdge_run in Hadd. discriminate Hadd.
Qed.

(** C9, amended.  Neither edge mutation checks registration and neither
    fails.  [AddEdge] creates the predecessor list of a successor that has
    none.  [RemoveEdge] returns with the object unchanged when the
    successor has no predecessor list, and otherwise erases the first
    occurrence of the predecessor, if any. *)
Theorem edge_mutation_never_fails
    (pred_blk_id succ_blk_id : label) (c : CFG) :
  AddEdge pred_blk_id succ_blk_id c
    = Ok (tt, set_label2preds
                (<[succ_blk_id :=
                     default [] (label2preds_ c !! succ_blk_id)
                       ++ [pred_blk_id]]> (label2preds_ c)) c) ∧
  RemoveEdge pred_blk_id succ_blk_id c
    = Ok (tt, match label2preds_ c !! succ_blk_id with
              | None => c
              | Some preds_list =>
                  set_label2preds
                    (<[succ_blk_id := erase_first pred_blk_id preds_list]>
                       (label2preds_ c)) c
              end).
Proof.
  split; [apply AddEdge_run|].
  unfold RemoveEdge, mbind, M_bind, get.
  by destruct (label2preds_ c !! succ_blk_id).
Qed.

(** ** Registration and predecessor queries *)

Section registration.
Implicit Types (c : CFG) (blk : BasicBlock) (k : label) (o : op).

Lemma preds_run k c :
  preds k c = match label2preds_ c !! k with
              | Some l => Ok (l, c)
              | None => AssertFail
              end.
Proof. unfold preds, mbind, M_bind, get. by destruct (label2preds_ c !! k). Qed.

Lemma run_op_total o c : ∃ c', run_op o c = Ok (tt, c').
Proof.
  destruct o as [blk|blk|p s|p s]; simpl.
  - destruct (RegisterBlock_run blk c) as (m' & -> & _). eauto.
  - destruct (ForgetBlock_run blk c) as (m' & -> & _). eauto.
  - rewrite AddEdge_run. eauto.
  - rewrite RemoveEdge_run. eauto.
Qed.

(** Only [ForgetBlock] removes a predecessor list, and only the list of the
    block it is given. *)
Lemma run_op_keeps_preds_entry o c c' k :
  run_op o c = Ok (tt, c') →
  (∀ blk, o = OpForgetBlock blk → id blk ≠ k) →
  is_Some (label2preds_ c !! k) → is_Some (label2preds_ c' !! k).
Proof.
  intros Hrun Hforget [l Hl]. destruct o as [blk|blk|p s|p s]; simpl in Hrun.
  - destruct (RegisterBlock_run blk c) as (m' & Hr & Hm').
    rewrite Hr in Hrun. injection Hrun as <-. simpl. rewrite Hm', Hl.
    by case_decide.
  - destruct (ForgetBlock_run blk c) as (m' & Hr & Hm').
    rewrite Hr in Hrun. injection Hrun as <-. simpl. rewrite Hm', Hl.
    rewrite decide_False; [done|]. intros ->. by eapply Hforget.
  - rewrite AddEdge_run in Hrun. injection Hrun as <-. simpl.
    rewrite lookup_insert. case_decide; [done|]. by rewrite Hl.
  - rewrite RemoveEdge_run in Hrun. injection Hrun as <-. simpl.
    rewrite lookup_alter. case_decide; subst; rewrite Hl; simpl; eauto.
Qed.

Lemma run_ops_keeps_preds_entry ops c c' k :
  run_ops ops c = Ok (tt, c') →
  (∀ blk, OpForgetBlock blk ∈ ops → id blk ≠ k) →
  is_Some (label2preds_ c !! k) → is_Some (label2preds_ c' !! k).
Proof.
  revert c. induction ops as [|o ops IH]; intros c Hrun Hforget Hk.
  - injection Hrun as <-. done.
  - destruct (run_op_total o c) as [c1 Ho].
    unfold run_ops in Hrun. rewrite (for_each_cons _ _ _ _ _ Ho) in Hrun.
    apply (IH c1 Hrun).
    + intros blk Hin. apply Hforget, elem_of_cons. by right.
    + apply (run_op_keeps_preds_entry o c c1 k Ho); [|done].
      intros blk ->. apply Hforget, elem_of_cons. by left.
Qed.

Lemma run_ops_app_inv ops1 ops2 c c' :
  run_ops (ops1 ++ ops2) c = Ok (tt, c') →
  ∃ c1, run_ops ops1 c = Ok (tt, c1) ∧ run_ops ops2 c1 = Ok (tt, c').
Proof.
  revert c. induction ops1 as [|o ops1 IH]; intros c Hrun.
  - exists c. done.
  - destruct (run_op_total o c) as [c1 Ho]. simpl in Hrun.
    unfold run_ops in *. rewrite (for_each_cons _ _ _ _ _ Ho) in Hrun.
    destruct (IH c1 Hrun) as (c2 & H1 & H2). exists c2. split; [|done].
    by rewrite (for_each_cons _ _ _ _ _ Ho).
Qed.

End registration.

(** C2, refuted: after [AddEdge 1 2] on an object with nothing registered,
    [preds 2] returns the list holding 1, though block 2 was never
    registered. *)
Lemma preds_of_unregistered_successor_returns :
  ¬ preds_fails_when_never_registered.
Proof.
  intros H.
  specialize (H [OpAddEdge 1 2]
    (set_label2preds (<[2%N := [1%N]]> ∅) empty_cfg) 2%N).
  assert (Hp : preds 2 (set_label2preds (<[2%N := [1%N]]> ∅) empty_cfg)
               = AssertFail).
  { apply H; [done|]. intros blk Hin. apply list_elem_of_singleton in Hin.
    discriminate Hin. }
  rewrite preds_run in Hp. simpl in Hp. rewrite lookup_insert_eq in Hp.
  discriminate Hp.
Qed.

(** C2, amended.  After any sequence of calls, [preds] of an id that was
    registered and not forgotten since returns its predecessor list (which
    may be empty) and leaves the object as it is; [preds] stops with a hard
    failure exactly when the id has no predecessor list, and returns the
    list otherwise, whether or not the id was registered. *)
Theorem preds_of_registered_block
    (ops : list op) (c0 c : CFG) (blk_id : label) :
  run_ops ops c0 = Ok (tt, c) →
  (live_after ops blk_id → ∃ l, preds blk_id c = Ok (l, c)) ∧
  (preds blk_id c = AssertFail ↔ label2preds_ c !! blk_id = None) ∧
  (∀ l, preds blk_id c = Ok (l, c) ↔ label2preds_ c !! blk_id = Some l).
Proof.
  intros Hrun. split_and!.
  - intros (ops1 & blk & ops2 & -> & <- & Hforget).
    apply run_ops_app_inv in Hrun as (c1 & _ & Hrun).
    destruct (RegisterBlock_run blk c1) as (m' & Hr & Hm').
    unfold run_ops in Hrun.
    rewrite (for_each_cons run_op (OpRegisterBlock blk) _ _ _ Hr) in Hrun.
    destruct (run_ops_keeps_preds_entry ops2 _ c (id blk) Hrun Hforget)
      as [l Hl].
    + simpl. rewrite Hm'. rewrite decide_True; [done|by left].
    + exists l. by rewrite preds_run, Hl.
  - rewrite preds_run. by destruct (label2preds_ c !! blk_id).
  - intros l. rewrite preds_run.
    destruct (label2preds_ c !! blk_id); split; congruence.
Qed.

Lemma preds_of_registered_block_witness :
  run_ops [OpRegisterBlock (mkBlock 1 [] None None)] empty_cfg
    = Ok (tt, set_label2preds (<[1%N := []]> ∅)
                (set_id2block (<[1%N := mkBlock 1 [] None None]> ∅)
                   empty_cfg)) ∧
  ∃ l, preds 1 (set_label2preds (<[1%N := []]> ∅)
                  (set_id2block (<[1%N := mkBlock 1 [] None None]> ∅)
                     empty_cfg))
       = Ok (l, set_label2preds (<[1%N := []]> ∅)
                  (set_id2block (<[1%N := mkBlock 1 [] None None]> ∅)
                     empty_cfg)).
Proof.
  split; [reflexivity|].
  apply (preds_of_registered_block
           [OpRegisterBlock (mkBlock 1 [] None None)] empty_cfg _ 1%N).
  - reflexivity.
  - exists [], (mkBlock 1 [] None None), []. split_and!; [done|done|].
    intros blk' Hin. by apply elem_of_nil in Hin.
Defined.

(** C3.  [RegisterBlock b] returns, leaves [b] in the identity map under
    its own label, and appends [b] to the predecessor list of every label
    [b] names as a target, once per naming: the labels of its terminator
    and, for a header, its declared merge and continue labels.  Afterwards
    [preds s] returns a list holding [b] for each such target [s]. *)
Theorem RegisterBlock_adds_target_edges (blk : BasicBlock) (c : CFG) :
  ∃ c', RegisterBlock blk c = Ok (tt, c') ∧
    id2block_ c' = <[id blk := blk]> (id2block_ c) ∧
    (∀ s, s ∈ target_labels blk ↔
          s ∈ succ_labels blk ∨ merge_label blk = Some s
          ∨ continue_label blk = Some s) ∧
    (∀ s, s ∈ target_labels blk →
          preds s c'
            = Ok (default [] (label2preds_ c !! s)
                    ++ replicate (occ s (target_labels blk)) (id blk), c') ∧
          id blk ∈ default [] (label2preds_ c !! s)
                     ++ replicate (occ s (target_labels blk)) (id blk)) ∧
    (∀ s, s ∉ target_labels blk → s ≠ id blk →
          label2preds_ c' !! s = label2preds_ c !! s).
Proof.
  destruct (RegisterBlock_run blk c) as (m' & Hr & Hm').
  eexists. split; [exact Hr|]. simpl. split_and!; [done| | |].
  - intros s. unfold target_labels. rewrite !elem_of_app.
    destruct (merge_label blk), (continue_label blk); simpl;
      rewrite ?list_elem_of_singleton, ?elem_of_nil; intuition congruence.
  - intros s Hs. split.
    + rewrite preds_run. simpl. rewrite Hm'.
      rewrite decide_True; [done|by right].
    + apply elem_of_app. right. apply occ_pos in Hs.
      destruct (occ s (target_labels blk)); [lia|].
      simpl. apply elem_of_cons. by left.
  - intros s Hs Hne. rewrite Hm'. rewrite decide_False; [done|].
    intros [?|?]; done.
Qed.

(** ** Forgetting a block *)

(** C1, refuted: with blocks 1 and 2 registered, block 1 branching to 2,
    and the edge from 1 to 2 added once more by [AddEdge], the predecessor
    list of 2 is [1; 1]; [ForgetBlock] of block 1 erases one occurrence, one
    for the one label of its terminator, and [preds 2] still returns [1]. *)
Lemma ForgetBlock_leaves_parallel_edge : ¬ forget_block_hides_block.
Proof.
  intros H.
  destruct (H ParallelEdge.calls ParallelEdge.cfg ParallelEdge.b1)
    as (c' & Hrun & _ & _ & Hpreds).
  - reflexivity.
  - reflexivity.
  - destruct (ForgetBlock_run ParallelEdge.b1 ParallelEdge.cfg)
      as (m' & Hr & Hm').
    rewrite Hr in Hrun. injection Hrun as <-.
    apply (Hpreds 2%N [1%N]).
    + rewrite preds_run. simpl. rewrite Hm'. reflexivity.
    + apply list_elem_of_singleton. reflexivity.
Qed.

(** C1, amended.  [ForgetBlock b] removes [b]'s identity-map entry and
    [b]'s own predecessor list, and erases from the predecessor list of
    each label [b]'s terminator names one occurrence of [b] per naming.
    When beforehand no list held [b] more often than [b]'s terminator names
    its block, no [preds] query on a remaining block shows [b]
    afterwards. *)
Theorem ForgetBlock_hides_block_in_sync (blk : BasicBlock) (c : CFG) :
  ∃ c', ForgetBlock blk c = Ok (tt, c') ∧
    id2block_ c' = delete (id blk) (id2block_ c) ∧
    label2preds_ c' !! id blk = None ∧
    (∀ s, s ≠ id blk →
       label2preds_ c' !! s
         = Nat.iter (occ s (succ_labels blk)) (erase_first (id blk))
             <$> label2preds_ c !! s) ∧
    (edges_in_sync c blk →
     ∀ s l, preds s c' = Ok (l, c') → id blk ∉ l).
Proof.
  destruct (ForgetBlock_run blk c) as (m' & Hr & Hm').
  eexists. split; [exact Hr|]. simpl. split_and!; [done| | |].
  - rewrite Hm'. by rewrite decide_True.
  - intros s Hs. rewrite Hm'. by rewrite decide_False.
  - intros Hsync s l. rewrite preds_run. simpl. rewrite Hm'.
    case_decide as Hs; [done|].
    destruct (label2preds_ c !! s) as [l0|] eqn:Hl0; [|done].
    simpl. intros [= <-]. apply occ_zero. rewrite occ_iter_erase_eq.
    destruct (Hsync s l0 Hl0) as [?|Hle]; [done|]. lia.
Qed.

Lemma ForgetBlock_hides_block_in_sync_witness :
  edges_in_sync ParallelEdge.synced ParallelEdge.b1 ∧
  ∃ c', ForgetBlock ParallelEdge.b1 ParallelEdge.synced = Ok (tt, c') ∧
    label2preds_ c' !! 1%N = None ∧
    ∀ s l, preds s c' = Ok (l, c') → 1%N ∉ l.
Proof.
  assert (Hsync : edges_in_sync ParallelEdge.synced ParallelEdge.b1).
  { apply (bool_decide_unpack _). vm_compute. exact I. }
  split; [exact Hsync|].
  destruct (ForgetBlock_hides_block_in_sync
              ParallelEdge.b1 ParallelEdge.synced)
    as (c' & Hrun & _ & Hown & _ & Hpreds).
  exists c'. split_and!; [exact Hrun|exact Hown|exact (Hpreds Hsync)].
Defined.

(** C10.  [ForgetBlock b] takes out of the predecessor list of another
    block [s] exactly as many occurrences of [b] as [b]'s terminator names
    [s], each time the first one left; a list whose block the terminator
    does not name is unchanged, whatever [b]'s merge and continue
    declarations are, and no other id is removed from any list. *)
Theorem ForgetBlock_erases_terminator_edges_only
    (blk : BasicBlock) (c : CFG) :
  ∃ c', ForgetBlock blk c = Ok (tt, c') ∧
    (∀ s, s ≠ id blk →
       label2preds_ c' !! s
         = Nat.iter (occ s (succ_labels blk)) (erase_first (id blk))
             <$> label2preds_ c !! s) ∧
    (∀ s, s ≠ id blk → s ∉ succ_labels blk →
       label2preds_ c' !! s = label2preds_ c !! s) ∧
    (∀ s l l', s ≠ id blk →
       label2preds_ c !! s = Some l → label2preds_ c' !! s = Some l' →
       occ (id blk) l' = occ (id blk) l - occ s (succ_labels blk) ∧
       ∀ q, q ≠ id blk → occ q l' = occ q l) ∧
    (∀ merge continue,
       ForgetBlock (mkBlock (id blk) (succ_labels blk) merge continue) c
       = Ok (tt, c')).
Proof.
  destruct (ForgetBlock_run blk c) as (m' & Hr & Hm').
  eexists. split; [exact Hr|]. simpl.
  assert (Hiter : ∀ s, s ≠ id blk →
    m' !! s = Nat.iter (occ s (succ_labels blk)) (erase_first (id blk))
                <$> label2preds_ c !! s).
  { intros s Hs. rewrite Hm'. by rewrite decide_False. }
  split_and!; [done| | |].
  - intros s Hs Hn. rewrite (Hiter s Hs).
    apply occ_zero in Hn. rewrite Hn. simpl.
    by destruct (label2preds_ c !! s).
  - intros s l l' Hs Hl Hl'. rewrite (Hiter s Hs), Hl in Hl'.
    injection Hl' as <-. split; [apply occ_iter_erase_eq|].
    intros q Hq. by apply occ_iter_erase_ne.
  - intros merge continue.
    destruct (ForgetBlock_run
      (mkBlock (id blk) (succ_labels blk) merge continue) c)
      as (m2 & Hr2 & Hm2).
    rewrite Hr2. simpl in *. do 3 f_equal. apply map_eq. intros k.
    by rewrite Hm', Hm2.
Qed.

(** What [RegisterBlock] followed by [ForgetBlock] leaves in the
    predecessor list of another block: the edges that came from the merge
    and continue declarations. *)
Lemma RegisterBlock_ForgetBlock_leaves_declared_edges
    (blk : BasicBlock) (c : CFG) (s : label) :
  s ≠ id blk →
  ∃ c1 c2, RegisterBlock blk c = Ok (tt, c1) ∧
    ForgetBlock blk c1 = Ok (tt, c2) ∧
    occ (id blk) (default [] (label2preds_ c2 !! s))
    = occ (id blk) (default [] (label2preds_ c !! s))
      + occ s (option_list (merge_label blk)
                 ++ option_list (continue_label blk)).
Proof.
  intros Hs.
  destruct (RegisterBlock_run blk c) as (m1 & Hr1 & Hm1).
  eexists. destruct (ForgetBlock_run blk
    (set_label2preds m1 (set_id2block (<[id blk := blk]> (id2block_ c)) c)))
    as (m2 & Hr2 & Hm2).
  eexists. split; [exact Hr1|]. split; [exact Hr2|]. simpl in *.
  rewrite Hm2, decide_False by done. rewrite Hm1.
  assert (Hocc : occ s (target_labels blk)
    = occ s (succ_labels blk)
      + occ s (option_list (merge_label blk)
                 ++ option_list (continue_label blk))).
  { unfold target_labels. by rewrite !occ_app. }
  case_decide as Hin.
  - simpl. rewrite occ_iter_erase_eq, occ_app, occ_replicate.
    rewrite decide_True by done. lia.
  - assert (Hz : occ s (target_labels blk) = 0).
    { apply occ_zero. intros ?. apply Hin. by right. }
    assert (occ s (succ_labels blk) = 0) as -> by lia.
    replace (occ s (option_list (merge_label blk)
                      ++ option_list (continue_label blk))) with 0 by lia.
    simpl. destruct (label2preds_ c !! s); simpl; rewrite ?occ_nil; lia.
Qed.

(** ** Construction *)

Section construction.
Implicit Types (c : CFG) (blk : BasicBlock) (k : label) (fn : list BasicBlock).

Lemma for_each_fmap {A B} (f : A → B) (g : B → M unit) (l : list A) c :
  for_each (f <$> l) g c = for_each l (λ x, g (f x)) c.
Proof.
  revert c. induction l as [|x l IH]; intros c; [done|]. simpl.
  unfold mbind, M_bind. destruct (g (f x) c) as [[[] c1]| |]; auto.
Qed.

Lemma for_each_AddEdge_to s (ps : list label) c :
  ∃ m', for_each ps (λ p, AddEdge p s) c = Ok (tt, set_label2preds m' c) ∧
    (∀ k, default [] (m' !! k)
          = pred_list c k ++ (if decide (k = s) then ps else [])) ∧
    (∀ k, is_Some (label2preds_ c !! k) → is_Some (m' !! k)).
Proof.
  revert c. induction ps as [|p ps IH]; intros c.
  - exists (label2preds_ c). split_and!; [|intros k|done].
    + by rewrite for_each_nil, set_label2preds_id.
    + unfold pred_list. case_decide; by rewrite app_nil_r.
  - destruct (IH (set_label2preds
        (<[s := default [] (label2preds_ c !! s) ++ [p]]> (label2preds_ c)) c))
      as (m' & Hrun & Hm' & Hmono).
    exists m'. split_and!.
    + rewrite (for_each_cons (λ p, AddEdge p s) p ps c _ (AddEdge_run p s c)).
      exact Hrun.
    + intros k. rewrite Hm'. unfold pred_list. simpl.
      rewrite lookup_insert. destruct (decide (s = k)) as [->|Hne].
      * rewrite !decide_True by done. simpl. by rewrite <- app_assoc.
      * rewrite decide_False by done.
        by rewrite (decide_False (P := k = s)) by done.
    + intros k Hk. apply Hmono. simpl. rewrite lookup_insert.
      by case_decide.
Qed.

Lemma for_each_AddEdge_from p (ls : list label) c :
  ∃ m', for_each ls (AddEdge p) c = Ok (tt, set_label2preds m' c) ∧
    (∀ k, default [] (m' !! k) = pred_list c k ++ replicate (occ k ls) p) ∧
    (∀ k, is_Some (label2preds_ c !! k) → is_Some (m' !! k)).
Proof.
  destruct (for_each_AddEdge p ls c) as (m' & Hrun & Hm').
  exists m'. split; [done|]. split; intros k.
  - rewrite Hm'. unfold pred_list. case_decide as Hin; [done|].
    apply occ_zero in Hin. rewrite Hin. simpl. by rewrite app_nil_r.
  - rewrite Hm'. by case_decide.
Qed.

Lemma RegisterBlock_pred_list blk c :
  ∃ c', RegisterBlock blk c = Ok (tt, c') ∧ same_pseudo_blocks c c' ∧
    (∀ k, pred_list c' k
          = pred_list c k ++ replicate (occ k (target_labels blk)) (id blk)) ∧
    is_Some (label2preds_ c' !! id blk) ∧
    (∀ k, is_Some (label2preds_ c !! k) → is_Some (label2preds_ c' !! k)).
Proof.
  destruct (RegisterBlock_run blk c) as (m' & Hrun & Hm').
  eexists. split; [exact Hrun|]. split; [done|]. simpl. split_and!.
  - intros k. unfold pred_list. simpl. rewrite Hm'.
    case_decide as Hk; [done|].
    assert (Hz : occ k (target_labels blk) = 0).
    { apply occ_zero. intros ?. apply Hk. by right. }
    rewrite Hz. simpl. by rewrite app_nil_r.
  - rewrite Hm'. rewrite decide_True; [done|by left].
  - intros k. rewrite Hm'. by case_decide.
Qed.

Lemma register_all_pred_list fn c :
  ∃ c', for_each fn RegisterBlock c = Ok (tt, c') ∧ same_pseudo_blocks c c' ∧
    (∀ k, pred_list c' k = pred_list c k ++ incoming fn k) ∧
    (∀ blk, blk ∈ fn → is_Some (label2preds_ c' !! id blk)) ∧
    (∀ k, is_Some (label2preds_ c !! k) → is_Some (label2preds_ c' !! k)).
Proof.
  revert c. induction fn as [|blk fn IH]; intros c.
  - exists c. split; [done|]. split; [done|]. split_and!; [|by inversion 1|done].
    intros k. unfold incoming. simpl. by rewrite app_nil_r.
  - destruct (RegisterBlock_pred_list blk c)
      as (c1 & Hr & [He Hx] & Hl & Hown & Hmono).
    destruct (IH c1) as (c' & Hrun & [He' Hx'] & Hl' & Hown' & Hmono').
    exists c'. split; [by rewrite (for_each_cons _ _ _ _ _ Hr)|].
    split; [split; congruence|]. split_and!.
    + intros k. rewrite Hl', Hl. unfold incoming. simpl.
      by rewrite <- app_assoc.
    + intros b Hb. apply elem_of_cons in Hb as [->|Hb]; auto.
    + auto.
Qed.

(** One function: its blocks registered, then hooked to the pseudo
    blocks. *)
Lemma build_function_pred_list fn c :
  ∃ c1 c', for_each fn RegisterBlock c = Ok (tt, c1) ∧
    build_function fn c = Ok (tt, c') ∧ same_pseudo_blocks c c' ∧
    (∀ k, pred_list c1 k = pred_list c k ++ incoming fn k) ∧
    (∀ k, pred_list c' k
          = pred_list c1 k
            ++ replicate (occ k (id <$> filter (has_no_preds c1) fn))
                 (id (pseudo_entry_block_ c))
            ++ (if decide (k = id (pseudo_exit_block_ c))
                then id <$> filter (λ blk, succ_labels blk = []) fn
                else [])) ∧
    (∀ blk, blk ∈ fn → is_Some (label2preds_ c' !! id blk)) ∧
    (∀ k, is_Some (label2preds_ c !! k) → is_Some (label2preds_ c' !! k)).
Proof.
  destruct (register_all_pred_list fn c)
    as (c1 & Hreg & [He Hx] & Hl1 & Hown1 & Hmono1).
  destruct (for_each_AddEdge_from (id (pseudo_entry_block_ c1))
    (id <$> filter (has_no_preds c1) fn) c1) as (m2 & Hrun2 & Hl2 & Hmono2).
  destruct (for_each_AddEdge_to (id (pseudo_exit_block_ c1))
    (id <$> filter (λ blk, succ_labels blk = []) fn)
    (set_label2preds m2 c1)) as (m3 & Hrun3 & Hl3 & Hmono3).
  exists c1, (set_label2preds m3 c1).
  split; [done|]. split_and!.
  - unfold build_function. rewrite (bind_run _ _ _ _ _ Hreg).
    unfold hook_pseudo_blocks.
    rewrite (bind_run get _ c1 c1 c1) by done.
    rewrite for_each_fmap in Hrun2. rewrite (bind_run _ _ _ _ _ Hrun2).
    rewrite for_each_fmap in Hrun3. exact Hrun3.
  - done.
  - done.
  - intros k. unfold pred_list at 1. simpl. rewrite Hl3.
    unfold pred_list at 1. simpl. rewrite Hl2. rewrite He, Hx.
    by rewrite <- app_assoc.
  - intros blk Hb. simpl. apply Hmono3. simpl. auto.
  - intros k Hk. simpl. apply Hmono3. simpl. auto.
Qed.

Lemma elem_of_incoming fn k x :
  x ∈ incoming fn k →
  ∃ blk, blk ∈ fn ∧ x = id blk ∧ k ∈ target_labels blk.
Proof.
  unfold incoming. rewrite list_elem_of_bind. intros (blk & Hx & Hblk).
  apply elem_of_replicate in Hx as [-> Hn]. exists blk. split_and!; [done..|].
  apply occ_pos. lia.
Qed.

Lemma occ_ids_le_1 (P : BasicBlock → Prop) `{!∀ b, Decision (P b)} fn k :
  NoDup (id <$> fn) → occ k (id <$> filter P fn) ≤ 1.
Proof.
  intros Hnd. unfold occ. apply NoDup_count_occ.
  apply NoDup_ListNoDup.
  eapply sublist_NoDup; [exact Hnd|]. apply fmap_sublist, sublist_filter.
Qed.

Lemma occ_ids_filter_pos (P : BasicBlock → Prop) `{!∀ b, Decision (P b)}
    fn blk :
  blk ∈ fn → P blk → 0 < occ (id blk) (id <$> filter P fn).
Proof.
  intros Hin HP. apply occ_pos, list_elem_of_fmap_2, list_elem_of_filter.
  done.
Qed.

Lemma occ_ids_filter_1 (P : BasicBlock → Prop) `{!∀ b, Decision (P b)}
    fn blk :
  NoDup (id <$> fn) → blk ∈ fn → P blk →
  occ (id blk) (id <$> filter P fn) = 1.
Proof.
  intros Hnd Hin HP. pose proof (occ_ids_le_1 P fn (id blk) Hnd).
  pose proof (occ_ids_filter_pos P fn blk Hin HP). lia.
Qed.

Lemma occ_ids_filter_0 (P : BasicBlock → Prop) `{!∀ b, Decision (P b)} fn k :
  (∀ blk, blk ∈ fn → id blk = k → ¬ P blk) →
  occ k (id <$> filter P fn) = 0.
Proof.
  intros Hall. apply occ_zero. intros Hin.
  apply list_elem_of_fmap in Hin as (blk & -> & Hblk).
  apply list_elem_of_filter in Hblk as [HP Hblk]. by eapply Hall.
Qed.

(** The predecessor list of the pseudo-exit: the blocks whose terminator
    names no successor, in module order. *)
Lemma construct_exit_list (module : list (list BasicBlock)) c :
  id (pseudo_exit_block_ c) ∉ id <$> concat module →
  (∀ blk, blk ∈ concat module →
     id (pseudo_exit_block_ c) ∉ target_labels blk) →
  ∃ c', for_each module build_function c = Ok (tt, c') ∧
    same_pseudo_blocks c c' ∧
    pred_list c' (id (pseudo_exit_block_ c))
    = pred_list c (id (pseudo_exit_block_ c))
      ++ (id <$> filter (λ blk, succ_labels blk = []) (concat module)).
Proof.
  revert c. induction module as [|fn module IH]; intros c Hids Htgt.
  - exists c. split; [done|]. split; [done|]. simpl. by rewrite app_nil_r.
  - simpl in Hids, Htgt. rewrite fmap_app in Hids.
    apply not_elem_of_app in Hids as [Hfn Hrest].
    destruct (build_function_pred_list fn c)
      as (c1 & c2 & _ & Hrun & [He Hx] & Hl1 & Hl2 & _ & _).
    destruct (IH c2) as (c' & Hrun' & [He' Hx'] & Hl').
    { by rewrite Hx. }
    { intros blk Hblk. rewrite Hx. apply Htgt, elem_of_app. by right. }
    exists c'. split; [by rewrite (for_each_cons _ _ _ _ _ Hrun)|].
    split; [split; congruence|].
    rewrite Hx in Hl'. rewrite Hl', Hl2, Hl1.
    rewrite decide_True by done. simpl. rewrite filter_app, fmap_app.
    assert (incoming fn (id (pseudo_exit_block_ c)) = []) as ->.
    { destruct (incoming fn (id (pseudo_exit_block_ c))) as [|x l] eqn:Hinc;
        [done|]. exfalso.
      destruct (elem_of_incoming fn (id (pseudo_exit_block_ c)) x)
        as (blk & Hblk & _ & Hin).
      { rewrite Hinc. apply elem_of_cons. by left. }
      eapply Htgt; [|exact Hin]. apply elem_of_app. by left. }
    rewrite occ_ids_filter_0.
    + simpl. by rewrite app_nil_r, <- !app_assoc.
    + intros blk Hblk Hid _. apply Hfn. rewrite <- Hid.
      by apply list_elem_of_fmap_2.
Qed.

(** Across the construction no list holds the pseudo-entry twice, and the
    list of every block of the module is created and not empty. *)
Lemma construct_entry_once (module : list (list BasicBlock)) c :
  NoDup (id <$> concat module) →
  id (pseudo_entry_block_ c) ∉ id <$> concat module →
  (∀ k, occ (id (pseudo_entry_block_ c)) (pred_list c k) ≤ 1) →
  ∃ c', for_each module build_function c = Ok (tt, c') ∧
    (∀ k, occ (id (pseudo_entry_block_ c)) (pred_list c' k) ≤ 1) ∧
    (∀ k, is_Some (label2preds_ c !! k) → is_Some (label2preds_ c' !! k)) ∧
    (∀ k, pred_list c k ≠ [] → pred_list c' k ≠ []) ∧
    (∀ blk, blk ∈ concat module →
       is_Some (label2preds_ c' !! id blk) ∧ pred_list c' (id blk) ≠ []).
Proof.
  revert c. induction module as [|fn module IH]; intros c Hnd Hids Hocc.
  - exists c. split; [done|]. split_and!; [done..|]. by inversion 1.
  - simpl in Hnd, Hids. rewrite fmap_app in Hnd, Hids.
    apply NoDup_app in Hnd as (Hndfn & Hdisj & Hndrest).
    apply not_elem_of_app in Hids as [Hfn Hrest].
    destruct (build_function_pred_list fn c)
      as (c1 & c2 & _ & Hrun & [He Hx] & Hl1 & Hl2 & Hown & Hmono).
    set (E := id (pseudo_entry_block_ c)) in *.
    assert (Hocc2 : ∀ k, occ E (pred_list c2 k) ≤ 1).
    { intros k. rewrite Hl2, Hl1, !occ_app, occ_replicate.
      rewrite decide_True by done.
      assert (occ E (incoming fn k) = 0) as ->.
      { apply occ_zero. intros Hin.
        apply elem_of_incoming in Hin as (blk & Hblk & HE & _).
        apply Hfn. rewrite HE. by apply list_elem_of_fmap_2. }
      assert (occ E (if decide (k = id (pseudo_exit_block_ c))
                     then id <$> filter (λ blk, succ_labels blk = []) fn
                     else []) = 0) as ->.
      { apply occ_zero. case_decide; [|by inversion 1]. intros Hin.
        apply list_elem_of_fmap in Hin as (blk & HE & Hblk).
        apply list_elem_of_filter in Hblk as [_ Hblk].
        apply Hfn. rewrite HE. by apply list_elem_of_fmap_2. }
      pose proof (occ_ids_le_1 (has_no_preds c1) fn k Hndfn) as Hle.
      destruct (decide (occ k (id <$> filter (has_no_preds c1) fn) = 0))
        as [->|Hpos]; [specialize (Hocc k); lia|].
      assert (Hin : k ∈ id <$> filter (has_no_preds c1) fn).
      { apply occ_pos. lia. }
      apply list_elem_of_fmap in Hin as (blk & -> & Hblk).
      apply list_elem_of_filter in Hblk as [Hno _].
      unfold has_no_preds in Hno. fold (pred_list c1 (id blk)) in Hno.
      rewrite Hl1 in Hno. apply app_eq_nil in Hno as [-> _].
      rewrite occ_nil. lia. }
    destruct (IH c2) as (c' & Hrun' & Hocc' & Hmono' & Hne' & Hblocks');
      [done|by rewrite He|by rewrite He|].
    rewrite He in Hocc'.
    assert (Hgrow : ∀ k, pred_list c k ≠ [] → pred_list c2 k ≠ []).
    { intros k Hk. rewrite Hl2, Hl1. intros Hnil.
      apply app_eq_nil in Hnil as [Hnil _].
      by apply app_eq_nil in Hnil as [Hnil _]. }
    exists c'. split; [by rewrite (for_each_cons _ _ _ _ _ Hrun)|].
    split_and!; [done|auto|auto|].
    intros blk Hblk. simpl in Hblk. apply elem_of_app in Hblk as [Hblk|Hblk];
      [|by apply Hblocks'].
    split; [apply Hmono', Hown, Hblk|]. apply Hne'. rewrite Hl2.
    destruct (decide (has_no_preds c1 blk)) as [Hno|Hsome].
    + pose proof (occ_ids_filter_pos (has_no_preds c1) fn blk Hblk Hno).
      destruct (occ (id blk) (id <$> filter (has_no_preds c1) fn)); [lia|].
      simpl. intros Hnil. apply app_eq_nil in Hnil as [_ Hnil].
      discriminate Hnil.
    + intros Hnil. apply app_eq_nil in Hnil as [Hnil _]. by apply Hsome.
Qed.

(** A label no block names as a target, and which is not the pseudo-exit,
    ends with the pseudo-entry as its one predecessor when it is the label
    of a block of the module whose list was empty. *)
Lemma construct_unnamed_block (module : list (list BasicBlock)) c k :
  NoDup (id <$> concat module) →
  k ≠ id (pseudo_exit_block_ c) →
  (∀ blk, blk ∈ concat module → k ∉ target_labels blk) →
  ∃ c', for_each module build_function c = Ok (tt, c') ∧
    pred_list c' k
    = if decide (k ∈ id <$> concat module ∧ pred_list c k = [])
      then [id (pseudo_entry_block_ c)] else pred_list c k.
Proof.
  revert c. induction module as [|fn module IH]; intros c Hnd Hk Htgt.
  - exists c. split; [done|]. rewrite decide_False; [done|].
    intros [Hin _]. by apply elem_of_nil in Hin.
  - simpl in Hnd, Htgt. rewrite fmap_app in Hnd.
    apply NoDup_app in Hnd as (Hndfn & Hdisj & Hndrest).
    destruct (build_function_pred_list fn c)
      as (c1 & c2 & _ & Hrun & [He Hx] & Hl1 & Hl2 & _ & _).
    destruct (IH c2) as (c' & Hrun' & Hl'); [done|by rewrite Hx| |].
    { intros blk Hblk. apply Htgt, elem_of_app. by right. }
    exists c'. split; [by rewrite (for_each_cons _ _ _ _ _ Hrun)|].
    rewrite Hl', He. clear Hl' Hrun'.
    assert (Hinc : incoming fn k = []).
    { destruct (incoming fn k) as [|x l] eqn:Hinc; [done|]. exfalso.
      destruct (elem_of_incoming fn k x) as (blk & Hblk & _ & Hin).
      { rewrite Hinc. apply elem_of_cons. by left. }
      eapply Htgt; [|exact Hin]. apply elem_of_app. by left. }
    assert (Hc1 : pred_list c1 k = pred_list c k).
    { by rewrite Hl1, Hinc, app_nil_r. }
    assert (Hc2 : pred_list c2 k
      = pred_list c k
        ++ replicate (occ k (id <$> filter (has_no_preds c1) fn))
             (id (pseudo_entry_block_ c))).
    { rewrite Hl2, Hc1. rewrite decide_False by done. by rewrite app_nil_r. }
    simpl. rewrite fmap_app.
    destruct (decide (k ∈ id <$> fn)) as [Hfn|Hfn].
    + assert (Hrest : k ∉ id <$> concat module) by by apply Hdisj.
      rewrite (decide_False (P := _ ∧ pred_list c2 k = [])) by tauto.
      apply list_elem_of_fmap in Hfn as (blk & -> & Hblk).
      destruct (decide (pred_list c (id blk) = [])) as [Hnil|Hnil].
      * rewrite decide_True.
        2:{ split; [|done]. apply elem_of_app. left.
            by apply list_elem_of_fmap_2. }
        rewrite Hc2, Hnil. rewrite occ_ids_filter_1; [done..|].
        unfold has_no_preds. fold (pred_list c1 (id blk)). by rewrite Hc1.
      * rewrite decide_False by tauto.
        rewrite Hc2. rewrite occ_ids_filter_0; [by rewrite app_nil_r|].
        intros blk' Hblk' Hid Hno. apply Hnil.
        unfold has_no_preds in Hno. fold (pred_list c1 (id blk')) in Hno.
        by rewrite Hid, Hc1 in Hno.
    + assert (Hsame : pred_list c2 k = pred_list c k).
      { rewrite Hc2. rewrite occ_ids_filter_0; [by rewrite app_nil_r|].
        intros blk Hblk Hid _. apply Hfn. rewrite <- Hid.
        by apply list_elem_of_fmap_2. }
      rewrite Hsame. destruct (decide (pred_list c k = [])) as [Hnil|Hnil].
      * destruct (decide (k ∈ id <$> concat module)) as [Hin|Hin].
        -- rewrite !decide_True; [done| |done]. split; [|done].
           apply elem_of_app. by right.
        -- rewrite !decide_False; [done| |tauto].
           intros [Hin' _]. apply elem_of_app in Hin' as [?|?]; done.
      * rewrite !decide_False; tauto.
Qed.

Lemma incoming_cons blk fn k :
  incoming (blk :: fn) k
  = replicate (occ k (target_labels blk)) (id blk) ++ incoming fn k.
Proof. done. Qed.

Lemma occ_incoming fn k blk :
  NoDup (id <$> fn) → blk ∈ fn →
  occ (id blk) (incoming fn k) = occ k (target_labels blk).
Proof.
  induction fn as [|b fn IH]; intros Hnd Hin; [by apply elem_of_nil in Hin|].
  rewrite fmap_cons in Hnd. apply NoDup_cons in Hnd as [Hb Hnd].
  rewrite incoming_cons, occ_app, occ_replicate.
  apply elem_of_cons in Hin as [->|Hin].
  - rewrite decide_True by done.
    assert (occ (id b) (incoming fn k) = 0) as ->; [|lia].
    apply occ_zero. intros Hinc.
    apply elem_of_incoming in Hinc as (b' & Hb' & Hid & _).
    apply Hb. rewrite Hid. by apply list_elem_of_fmap_2.
  - rewrite decide_False.
    + by rewrite IH.
    + intros Hid. apply Hb. rewrite Hid. by apply list_elem_of_fmap_2.
Qed.

(** Registering blocks with distinct labels and no merge declaration on an
    empty edge table leaves the table in sync with every one of them. *)
Lemma register_all_in_sync fn c :
  label2preds_ c = ∅ → NoDup (id <$> fn) →
  Forall (λ blk, merge_label blk = None ∧ continue_label blk = None) fn →
  ∃ c', for_each fn RegisterBlock c = Ok (tt, c') ∧
    ∀ blk, blk ∈ fn → edges_in_sync c' blk.
Proof.
  intros Hempty Hnd Hplain.
  destruct (register_all_pred_list fn c) as (c' & Hrun & _ & Hl & _ & _).
  exists c'. split; [done|]. intros blk Hblk s l Hs. right.
  assert (l = pred_list c' s) as ->.
  { unfold pred_list. by rewrite Hs. }
  rewrite Hl. unfold pred_list at 1. rewrite Hempty, lookup_empty. simpl.
  rewrite (occ_incoming fn s blk Hnd Hblk).
  rewrite Forall_forall in Hplain. destruct (Hplain blk Hblk) as [Hm Hc].
  unfold target_labels. rewrite Hm, Hc. simpl. by rewrite app_nil_r.
Qed.

End construction.

(** C8.  After construction of a module whose block labels are pairwise
    distinct, differ from the two pseudo labels, and never name the
    pseudo-exit as a target: a block with no real predecessor (its list
    holds no label but the pseudo-entry's; in particular a block that no
    block of the module names as a target) has the pseudo-entry as its one
    and only predecessor, and a block whose terminator names no successor
    occurs exactly once in the predecessor list of the pseudo-exit. *)
Theorem construct_hooks_pseudo_blocks
    (entry_id exit_id : label) (module : list (list BasicBlock)) :
  NoDup (id <$> concat module) →
  entry_id ∉ id <$> concat module →
  exit_id ∉ id <$> concat module →
  Forall (λ blk, exit_id ∉ target_labels blk) (concat module) →
  ∃ c, construct entry_id exit_id module = Ok (tt, c) ∧
    id (pseudo_entry_block_ c) = entry_id ∧
    id (pseudo_exit_block_ c) = exit_id ∧
    ∀ blk, blk ∈ concat module →
      (∃ l, preds (id blk) c = Ok (l, c) ∧
         ((∀ p, p ∈ l → p = entry_id) → l = [entry_id]) ∧
         ((∀ blk', blk' ∈ concat module → id blk ∉ target_labels blk') →
          l = [entry_id])) ∧
      (succ_labels blk = [] →
       ∃ lx, preds exit_id c = Ok (lx, c) ∧ occ (id blk) lx = 1).
Proof.
  intros Hnd Hentry Hexit Htgt. rewrite Forall_forall in Htgt.
  unfold construct. set (c0 := initial_cfg entry_id exit_id).
  assert (Hnil : ∀ k, pred_list c0 k = []) by done.
  destruct (construct_entry_once module c0 Hnd Hentry)
    as (c & Hrun & Hocc & _ & _ & Hblocks).
  { intros k. rewrite Hnil, occ_nil. lia. }
  destruct (construct_exit_list module c0 Hexit Htgt)
    as (c' & Hrun' & [He Hx] & Hxl).
  rewrite Hrun in Hrun'. injection Hrun' as <-.
  exists c. split; [done|]. rewrite He, Hx. split; [done|]. split; [done|].
  intros blk Hblk. destruct (Hblocks blk Hblk) as [[l Hl] Hne]. split.
  - exists l. rewrite preds_run, Hl. split; [done|].
    specialize (Hocc (id blk)). unfold pred_list in Hne, Hocc.
    rewrite Hl in Hne, Hocc. simpl in *. split.
    + intros Hall. destruct l as [|x [|y l]]; [done| |].
      * f_equal. apply Hall, elem_of_cons. by left.
      * exfalso. rewrite (Hall x), (Hall y) in Hocc.
        -- rewrite !occ_cons, !decide_True in Hocc by done. lia.
        -- apply elem_of_cons. right. apply elem_of_cons. by left.
        -- apply elem_of_cons. by left.
    + intros Hunnamed.
      destruct (construct_unnamed_block module c0 (id blk) Hnd)
        as (c' & Hrun' & Hul); [|done|].
      { intros Heq. apply Hexit. simpl in Heq. rewrite <- Heq.
        by apply list_elem_of_fmap_2. }
      rewrite Hrun in Hrun'. injection Hrun' as <-.
      rewrite decide_True in Hul.
      2:{ split; [by apply list_elem_of_fmap_2|done]. }
      unfold pred_list in Hul. by rewrite Hl in Hul.
  - intros Hsucc. rewrite Hnil in Hxl. simpl in Hxl.
    assert (Hone : occ (id blk) (pred_list c exit_id) = 1).
    { rewrite Hxl. by apply occ_ids_filter_1. }
    unfold pred_list in Hone. rewrite preds_run.
    destruct (label2preds_ c !! exit_id) as [lx|]; [by exists lx|].
    simpl in Hone. rewrite occ_nil in Hone. lia.
Qed.

Lemma construct_hooks_pseudo_blocks_witness :
  ∃ c, construct 0 1000 [Scenario.func] = Ok (tt, c) ∧
    (∃ l, preds 1 c = Ok (l, c) ∧ l = [0%N]) ∧
    (∃ lx, preds 1000 c = Ok (lx, c) ∧ occ 4 lx = 1).
Proof.
  destruct (construct_hooks_pseudo_blocks 0 1000 [Scenario.func])
    as (c & Hrun & _ & _ & Hall); [by_computation..|].
  exists c. split; [exact Hrun|]. split.
  - destruct (Hall Scenario.A) as [(l & Hl & _ & Hunnamed) _];
      [by_computation|].
    exists l. split; [exact Hl|]. apply Hunnamed.
    apply Forall_forall. by_computation.
  - destruct (Hall Scenario.D) as [_ Hexit]; [by_computation|].
    apply Hexit. reflexivity.
Defined.

(** ** Depth-first search *)

Section paths.
Context (E : relation BasicBlock) (start : BasicBlock).
Implicit Types (x y d : BasicBlock) (p q : list BasicBlock).

Lemma rpath_reaches p x : rpath E start p → x ∈ p → reaches E start x.
Proof.
  induction 1 as [|p a b Hp IH Hb]; intros Hin.
  - apply list_elem_of_singleton in Hin as ->. exists []. constructor.
  - apply elem_of_cons in Hin as [->|Hin]; [|by apply IH].
    exists (a :: p). by constructor.
Qed.

Lemma reaches_start : reaches E start start.
Proof. exists []. constructor. Qed.

Lemma reaches_step x y : reaches E start x → E x y → reaches E start y.
Proof. intros [p Hp] Hy. exists (x :: p). by constructor. Qed.

Lemma rpath_inv_cons y p :
  rpath E start (y :: p) →
  (p = [] ∧ y = start) ∨ ∃ x p', p = x :: p' ∧ rpath E start p ∧ E x y.
Proof.
  inversion 1 as [|p' x y' Hp Hy]; subst; [by left|].
  right. by exists x, p'.
Qed.

Lemma reaches_rtc x : reaches E start x ↔ rtc E start x.
Proof.
  split.
  - intros [p Hp]. remember (x :: p) as q eqn:Hq. revert x p Hq.
    induction Hp as [|p a b Hp IH Hb]; intros x q [= <- <-]; [done|].
    eapply rtc_r; [by eapply IH|done].
  - revert x. apply rtc_ind_r; [apply reaches_start|].
    intros x y _ Hxy IH. by eapply reaches_step.
Qed.

End paths.

Section dfs.
Context (succs : BasicBlock → result (list BasicBlock)) (start : BasicBlock).
Implicit Types (stack order po rest : list BasicBlock).
Implicit Types (seen : gset BasicBlock) (x y bb sb : BasicBlock).

Local Abbreviation E := (succ_edge succs).
Local Abbreviation inv := (dfs_inv succs start).
Local Abbreviation step := (dfs_step succs).

Lemma dfs_inv_initial : inv [start] {[start]} [].
Proof.
  split.
  - rewrite app_nil_r. apply NoDup_singleton.
  - intros x. rewrite elem_of_singleton, list_elem_of_singleton, elem_of_nil.
    tauto.
  - intros x y Hx. by apply elem_of_nil in Hx.
  - right. constructor.
  - intros x Hx. apply elem_of_singleton in Hx as ->. apply reaches_start.
  - by apply elem_of_singleton.
Qed.

Lemma dfs_push_inv bb rest seen order ss i sb :
  succs bb = Ok ss →
  list_find (λ sb, sb ∉ seen) ss = Some (i, sb) →
  inv (bb :: rest) seen order → inv (sb :: bb :: rest) ({[sb]} ∪ seen) order.
Proof.
  intros Hss Hfind [Hnd Hseen Hclosed Hpath Hreach Hstart].
  apply list_find_Some in Hfind as (Hi & Hnew & _).
  assert (Hsb : E bb sb).
  { unfold succ_edge, succs_of. rewrite Hss. by eapply list_elem_of_lookup_2. }
  split.
  - change (NoDup (sb :: ((bb :: rest) ++ order))).
    apply NoDup_cons. split; [|done].
    intros Hin. apply Hnew, Hseen. by apply elem_of_app in Hin.
  - intros x. rewrite elem_of_union, elem_of_singleton, Hseen.
    rewrite !elem_of_cons. tauto.
  - intros x y Hx Hy. apply elem_of_union. right. by eapply Hclosed.
  - right. destruct Hpath as [?|Hpath]; [done|]. by constructor.
  - intros x Hx. apply elem_of_union in Hx as [Hx|Hx]; [|by apply Hreach].
    apply elem_of_singleton in Hx as ->. eapply reaches_step; [|exact Hsb].
    apply Hreach, Hseen. left. apply elem_of_cons. by left.
  - apply elem_of_union. by right.
Qed.

Lemma dfs_pop_inv bb rest seen order ss :
  succs bb = Ok ss →
  list_find (λ sb, sb ∉ seen) ss = None →
  inv (bb :: rest) seen order → inv rest seen (order ++ [bb]).
Proof.
  intros Hss Hfind [Hnd Hseen Hclosed Hpath Hreach Hstart].
  apply list_find_None in Hfind. rewrite Forall_forall in Hfind.
  split.
  - change (NoDup (bb :: (rest ++ order))) in Hnd.
    apply NoDup_cons in Hnd as [Hbb Hnd].
    rewrite app_assoc. apply NoDup_app. split_and!; [done| |].
    + intros x Hx Hx'. apply list_elem_of_singleton in Hx' as ->. done.
    + apply NoDup_singleton.
  - intros x. rewrite Hseen, elem_of_app, list_elem_of_singleton.
    rewrite elem_of_cons. tauto.
  - intros x y Hx Hy. apply elem_of_app in Hx as [Hx|Hx];
      [by eapply Hclosed|].
    apply list_elem_of_singleton in Hx as ->.
    unfold succ_edge, succs_of in Hy. rewrite Hss in Hy.
    specialize (Hfind y Hy). by apply dec_stable in Hfind.
  - destruct Hpath as [?|Hpath]; [done|].
    destruct rest as [|x rest]; [by left|]. right.
    apply rpath_inv_cons in Hpath as [[? _]|(x' & p' & [= <- <-] & Hp & _)];
      done.
  - done.
  - done.
Qed.

Lemma dfs_step_inv stack seen order stack' seen' order' :
  step (stack, seen, order) (stack', seen', order') →
  inv stack seen order → inv stack' seen' order'.
Proof.
  inversion 1; subst; eauto using dfs_push_inv, dfs_pop_inv.
Qed.

Lemma dfs_steps_inv s s' :
  rtc step s s' →
  inv s.1.1 s.1.2 s.2 → inv s'.1.1 s'.1.2 s'.2.
Proof.
  induction 1 as [|[[? ?] ?] [[? ?] ?] ? Hstep _ IH]; [done|].
  intros Hinv. apply IH. by eapply dfs_step_inv.
Qed.

(** The loop follows the step relation. *)
Lemma dfs_loop_steps fuel stack seen order po seen' :
  dfs_loop succs fuel stack seen order = Ok (po, seen') →
  rtc step (stack, seen, order) ([], seen', po).
Proof.
  revert stack seen order.
  induction fuel as [|fuel IH]; intros stack seen order Hrun; [done|].
  simpl in Hrun. destruct stack as [|bb rest].
  - injection Hrun as <- <-. done.
  - unfold mbind, result_bind in Hrun.
    destruct (succs bb) as [ss| |] eqn:Hss; [|done..].
    destruct (list_find (λ sb, sb ∉ seen) ss) as [[i sb]|] eqn:Hfind.
    + eapply rtc_l; [|by apply IH]. by econstructor.
    + eapply rtc_l; [|by apply IH]. by econstructor.
Qed.

(** With the successors of every block in a finite set [U], two rounds per
    block of [U] not yet seen and one per block on the stack are enough:
    the loop never runs dry. *)
Lemma dfs_loop_fuel (U : gset BasicBlock) fuel stack seen order :
  (∀ x, succs x ≠ OutOfFuel) →
  (∀ x ss y, succs x = Ok ss → y ∈ ss → y ∈ U) →
  2 * size (U ∖ seen) + length stack < fuel →
  dfs_loop succs fuel stack seen order ≠ OutOfFuel.
Proof.
  intros Hsuccs HU. revert stack seen order.
  induction fuel as [|fuel IH]; intros stack seen order Hfuel; [lia|].
  destruct stack as [|bb rest]; simpl.
  { discriminate. }
  pose proof (Hsuccs bb) as Hbb.
  destruct (succs bb) as [ss| |] eqn:Hss; simpl; [|discriminate|done].
  destruct (list_find (λ sb, sb ∉ seen) ss) as [[i sb]|] eqn:Hfind.
  - apply IH. apply list_find_Some in Hfind as (Hi & Hnew & _).
    assert (Hsb : sb ∈ U).
    { eapply HU; [exact Hss|]. by eapply list_elem_of_lookup_2. }
    assert (size (U ∖ ({[sb]} ∪ seen)) < size (U ∖ seen)).
    { apply subset_size. split.
      - intros x. rewrite !elem_of_difference, elem_of_union. tauto.
      - intros Hsub. specialize (Hsub sb).
        rewrite !elem_of_difference, elem_of_union, elem_of_singleton
          in Hsub. tauto. }
    simpl in *. lia.
  - apply IH. simpl in *. lia.
Qed.

(** With every reachable block's successors found and all of them in a
    finite set [U], the fuel of two rounds per block is enough. *)
Lemma dfs_loop_returns (U : gset BasicBlock) fuel stack seen order :
  (∀ x, reaches E start x → ∃ ss, succs x = Ok ss) →
  (∀ x, reaches E start x → x ∈ U) →
  inv stack seen order →
  2 * size (U ∖ seen) + length stack < fuel →
  ∃ po seen', dfs_loop succs fuel stack seen order = Ok (po, seen').
Proof.
  intros Hok HU. revert stack seen order.
  induction fuel as [|fuel IH]; intros stack seen order Hinv Hfuel; [lia|].
  simpl. destruct stack as [|bb rest]; [by eauto|].
  assert (Hbb : reaches E start bb).
  { apply (inv_reach _ _ _ _ _ Hinv), (inv_seen _ _ _ _ _ Hinv).
    left. apply elem_of_cons. by left. }
  destruct (Hok bb Hbb) as [ss Hss]. rewrite Hss. simpl.
  destruct (list_find (λ sb, sb ∉ seen) ss) as [[i sb]|] eqn:Hfind.
  - apply IH.
    + eapply (dfs_step_inv (bb :: rest)); [|exact Hinv]. by econstructor.
    + apply list_find_Some in Hfind as (Hi & Hnew & _).
      assert (Hsb : sb ∈ U).
      { apply HU. eapply reaches_step; [exact Hbb|].
        unfold succ_edge, succs_of. rewrite Hss. by eapply list_elem_of_lookup_2. }
      assert (size (U ∖ ({[sb]} ∪ seen)) < size (U ∖ seen)).
      { apply subset_size. split.
        - intros x. rewrite !elem_of_difference, elem_of_union. tauto.
        - intros Hsub. specialize (Hsub sb).
          rewrite !elem_of_difference, elem_of_union, elem_of_singleton
            in Hsub. tauto. }
      simpl in *. lia.
  - apply IH.
    + eapply (dfs_step_inv (bb :: rest)); [|exact Hinv]. by econstructor.
    + simpl in *. lia.
Qed.

(** At the end the order holds, once each, the blocks reachable from
    [start]. *)
Lemma dfs_inv_final seen po :
  inv [] seen po →
  NoDup po ∧ ∀ x, x ∈ po ↔ reaches E start x.
Proof.
  intros [Hnd Hseen Hclosed _ Hreach Hstart]. split; [done|].
  assert (Hin : ∀ x, x ∈ po ↔ x ∈ seen).
  { intros x. rewrite Hseen. split; [by right|].
    intros [Hx|Hx]; [by apply elem_of_nil in Hx|done]. }
  intros x. split; [intros Hx; by apply Hreach, Hin|].
  intros [p Hp]. remember (x :: p) as q eqn:Hq. revert x p Hq.
  induction Hp as [|p a b Hp IH Hb]; intros x q [= <- <-].
  - by apply Hin.
  - apply Hin. eapply Hclosed; [|exact Hb]. by eapply IH.
Qed.

End dfs.

(** ** Traversal over the real successor edges *)

Section real_graph.
Context (c : CFG).
Implicit Types (x y start : BasicBlock) (ls : list label).

Lemma mapM_block_run ls :
  mapM block ls c
  = match mapM (M := option) (λ s, id2block_ c !! s) ls with
    | Some bs => Ok (bs, c)
    | None => AssertFail
    end.
Proof.
  induction ls as [|s ls IH]; [done|].
  cbn [mapM]. unfold mbind at 1, M_bind at 1.
  unfold block at 1, mbind at 1, M_bind at 1, get.
  destruct (id2block_ c !! s) as [b|]; [|done]. simpl.
  unfold mbind at 1, M_bind at 1. rewrite IH.
  by destruct (mapM (M := option) (λ s, id2block_ c !! s) ls).
Qed.

Lemma real_succs_run x :
  real_succs c x
  = match mapM (M := option) (λ s, id2block_ c !! s) (succ_labels x) with
    | Some bs => Ok bs
    | None => AssertFail
    end.
Proof.
  unfold real_succs, query. rewrite mapM_block_run.
  by destruct (mapM (M := option) _ (succ_labels x)).
Qed.

Lemma real_succs_edge x y : succ_edge (real_succs c) x y → real_edge c x y.
Proof.
  unfold succ_edge, succs_of. rewrite real_succs_run.
  destruct (mapM (M := option) _ (succ_labels x)) as [bs|] eqn:Hbs;
    [|by inversion 1].
  apply mapM_Some in Hbs. intros Hy.
  apply list_elem_of_lookup in Hy as [i Hi].
  destruct (Forall2_lookup_r _ _ _ _ _ Hbs Hi) as (s & Hs & Hlook).
  exists s. split; [by eapply list_elem_of_lookup_2|done].
Qed.

Lemma real_succs_registered x :
  targets_registered c x →
  ∃ ss, real_succs c x = Ok ss ∧ ∀ y, real_edge c x y → y ∈ ss.
Proof.
  intros Hreg. rewrite real_succs_run.
  destruct (mapM_is_Some_2 (λ s, id2block_ c !! s) (succ_labels x))
    as [bs Hbs]; [done|].
  rewrite Hbs. exists bs. split; [done|]. intros y (s & Hs & Hy).
  apply mapM_Some in Hbs. apply list_elem_of_lookup in Hs as [i Hi].
  destruct (Forall2_lookup_l _ _ _ _ _ Hbs Hi) as (b & Hb & Hlook).
  assert (b = y) as <- by congruence. by eapply list_elem_of_lookup_2.
Qed.

Lemma reaches_real_edges start x :
  reaches (succ_edge (real_succs c)) start x → rtc (real_edge c) start x.
Proof.
  intros [p Hp]. remember (x :: p) as q eqn:Hq. revert x p Hq.
  induction Hp as [|p a b Hp IH Hb]; intros x q [= <- <-]; [done|].
  eapply rtc_r; [by eapply IH|]. by apply real_succs_edge.
Qed.

Lemma real_edges_reaches start x :
  (∀ y, rtc (real_edge c) start y → targets_registered c y) →
  rtc (real_edge c) start x → reaches (succ_edge (real_succs c)) start x.
Proof.
  intros Hreg. revert x. apply rtc_ind_r; [|intros x y Hx Hxy IH].
  - apply reaches_start.
  - eapply reaches_step; [exact IH|].
    destruct (real_succs_registered x (Hreg x Hx)) as (ss & Hss & Hin).
    unfold succ_edge, succs_of. rewrite Hss. by apply Hin.
Qed.

Lemma cfg_closed_reachable start :
  targets_registered c start → cfg_closed c →
  ∀ y, rtc (real_edge c) start y → targets_registered c y.
Proof.
  intros Hstart Hclosed. apply rtc_ind_r; [done|intros x y Hx Hxy IH].
  destruct Hxy as (s & _ & Hs). by eapply Hclosed.
Qed.

Lemma size_map_img_le (m : gmap label BasicBlock) :
  size (map_img m : gset BasicBlock) ≤ size m.
Proof.
  induction m as [|i x m Hi IH] using map_ind.
  - by rewrite map_img_empty_L, size_empty, map_size_empty.
  - rewrite map_size_insert_None by done.
    rewrite map_img_insert_notin_L by done.
    rewrite size_union_alt, size_singleton.
    assert (size (map_img m ∖ {[x]} : gset BasicBlock)
            ≤ size (map_img m : gset BasicBlock)); [|lia].
    apply subseteq_size. intros y. rewrite elem_of_difference. tauto.
Qed.

(** Whatever the object holds, the traversal does not stop for want of
    fuel: it returns or fails on a label that is not registered. *)
Lemma ComputePostOrderTraversal_fuel start order (seen : gset BasicBlock) :
  ComputePostOrderTraversal start order seen c ≠ OutOfFuel.
Proof.
  unfold ComputePostOrderTraversal, mbind, M_bind, get, lift_result.
  pose proof (dfs_loop_fuel (real_succs c) (map_img (id2block_ c))
    (traversal_fuel c) [start] ({[start]} ∪ seen) order) as Hfuel.
  destruct (dfs_loop _ _ _ _ _) as [[po seen']| |]; [discriminate..|].
  exfalso. apply Hfuel; [| |unfold traversal_fuel; simpl|done].
  - intros x. rewrite real_succs_run.
    by destruct (mapM (M := option) _ (succ_labels x)).
  - intros x ss y Hss Hy.
    assert (Hxy : succ_edge (real_succs c) x y).
    { unfold succ_edge, succs_of. by rewrite Hss. }
    apply real_succs_edge in Hxy as (s & _ & Hs).
    by eapply elem_of_map_img_2.
  - assert (size (map_img (id2block_ c) ∖ ({[start]} ∪ seen)
                  : gset BasicBlock) ≤ size (id2block_ c)); [|lia].
    etrans; [|apply size_map_img_le]. apply subseteq_size.
    intros x. rewrite elem_of_difference. tauto.
Qed.

(** The traversal returns whenever every reachable terminator names
    registered labels only, and its order holds the reachable blocks once
    each. *)
Lemma ComputePostOrderTraversal_run start :
  (∀ y, rtc (real_edge c) start y → targets_registered c y) →
  ∃ po seen,
    ComputePostOrderTraversal start [] ∅ c = Ok ((po, seen), c) ∧
    dfs_inv (real_succs c) start [] seen po ∧
    NoDup po ∧ ∀ x, x ∈ po ↔ rtc (real_edge c) start x.
Proof.
  intros Hreg.
  unfold ComputePostOrderTraversal, mbind, M_bind, get, lift_result.
  rewrite union_empty_r_L.
  destruct (dfs_loop_returns (real_succs c) start
    ({[start]} ∪ map_img (id2block_ c)) (traversal_fuel c)
    [start] {[start]} []) as (po & seen & Hrun).
  - intros x Hx. apply reaches_real_edges in Hx.
    destruct (real_succs_registered x (Hreg x Hx)) as (ss & Hss & _). eauto.
  - intros x [p Hp]. apply rpath_inv_cons in Hp
      as [[_ ->]|(a & p' & -> & _ & Hx)].
    + apply elem_of_union. left. by apply elem_of_singleton.
    + apply elem_of_union. right. apply real_succs_edge in Hx as (s & _ & Hs).
      by eapply elem_of_map_img_2.
  - apply dfs_inv_initial.
  - unfold traversal_fuel. simpl.
    assert (size (({[start]} ∪ map_img (id2block_ c)) ∖ {[start]}
                  : gset BasicBlock) ≤ size (id2block_ c)); [|lia].
    etrans; [|apply size_map_img_le]. apply subseteq_size.
    intros x. rewrite elem_of_difference, elem_of_union. tauto.
  - exists po, seen. rewrite Hrun. simpl. split; [done|].
    assert (Hinv : dfs_inv (real_succs c) start [] seen po).
    { apply dfs_loop_steps in Hrun.
      apply (dfs_steps_inv _ _ _ _ Hrun), dfs_inv_initial. }
    split; [done|]. destruct (dfs_inv_final _ _ _ _ Hinv) as [Hnd Hin].
    split; [done|]. intros x. rewrite Hin. split.
    + apply reaches_real_edges.
    + by apply real_edges_reaches.
Qed.

End real_graph.

Lemma foldl_record_visit (acc po : list BasicBlock) :
  foldl (λ s b, record_visit b s) acc po = acc ++ po.
Proof.
  revert acc. induction po as [|b po IH]; intros acc; simpl.
  - by rewrite app_nil_r.
  - rewrite IH. unfold record_visit. by rewrite <- app_assoc.
Qed.

Lemma foldr_as_foldl_reverse {S} (f : BasicBlock → S → S) (s0 : S)
    (po : list BasicBlock) :
  foldr f s0 po = foldl (λ s b, f b s) s0 (reverse po).
Proof.
  induction po as [|b po IH]; [done|].
  rewrite reverse_cons, foldl_snoc. simpl. by rewrite IH.
Qed.

Lemma foldr_insert_blocks (po : list BasicBlock) :
  foldr (λ bb s, {[bb]} ∪ s) (∅ : gset BasicBlock) po = list_to_set po.
Proof. induction po as [|b po IH]; [done|]. simpl. by rewrite IH. Qed.

(** C6.  On every object and for every start block, the visitor of
    [ForEachBlockInReversePostOrder] is given the blocks that the visitor of
    [ForEachBlockInPostOrder] is given, in exactly the reverse sequence; and
    the one fails when the other does. *)
Theorem reverse_post_order_is_reverse_of_post_order
    (c : CFG) (start : BasicBlock) :
  ForEachBlockInReversePostOrder start record_visit [] c
  = (λ r, (reverse r.1, r.2))
      <$> ForEachBlockInPostOrder start record_visit [] c ∧
  ∀ (S : Type) (f : BasicBlock → S → S) (s0 : S),
    ForEachBlockInReversePostOrder start f s0 c
    = (λ r, (foldl (λ s b, f b s) s0 (reverse r.1), r.2))
        <$> ForEachBlockInPostOrder start record_visit [] c.
Proof.
  assert (Hgen : ∀ (S : Type) (f : BasicBlock → S → S) (s0 : S),
    ForEachBlockInReversePostOrder start f s0 c
    = (λ r, (foldl (λ s b, f b s) s0 (reverse r.1), r.2))
        <$> ForEachBlockInPostOrder start record_visit [] c).
  { intros S f s0.
    unfold ForEachBlockInReversePostOrder, ForEachBlockInPostOrder.
    unfold mbind, M_bind.
    destruct (ComputePostOrderTraversal start [] ∅ c)
      as [[[po seen] c']| |]; [|done..].
    simpl. unfold mret, M_ret.
    by rewrite foldl_record_visit, foldr_as_foldl_reverse. }
  split; [|exact Hgen].
  rewrite Hgen.
  destruct (ForEachBlockInPostOrder start record_visit [] c)
    as [[po c']| |]; [|done..].
  simpl. by rewrite foldl_record_visit.
Qed.

(** C7.  [FindReachableBlocks start] returns the set of the blocks that
    [ForEachBlockInPostOrder start] gives to its visitor, and fails when it
    fails.  When the terminators of the blocks reachable from [start] name
    registered labels only, both return, the visitor is given each block
    reachable from [start] over real successor edges exactly once, and no
    other block. *)
Theorem FindReachableBlocks_is_post_order_set
    (c : CFG) (start : BasicBlock) :
  query (FindReachableBlocks start) c
  = list_to_set <$> query (ForEachBlockInPostOrder start record_visit []) c ∧
  ((∀ y, rtc (real_edge c) start y → targets_registered c y) →
   ∃ po,
     ForEachBlockInPostOrder start record_visit [] c = Ok (po, c) ∧
     FindReachableBlocks start c = Ok (list_to_set po, c) ∧
     NoDup po ∧
     (∀ x, x ∈ po ↔ rtc (real_edge c) start x) ∧
     (∀ x, x ∈ (list_to_set po : gset BasicBlock)
           ↔ rtc (real_edge c) start x)).
Proof.
  split.
  - unfold query, FindReachableBlocks, ForEachBlockInReversePostOrder,
      ForEachBlockInPostOrder, mbind, M_bind.
    destruct (ComputePostOrderTraversal start [] ∅ c)
      as [[[po seen] c']| |]; [|done..].
    simpl. by rewrite foldl_record_visit, foldr_insert_blocks.
  - intros Hreg.
    destruct (ComputePostOrderTraversal_run c start Hreg)
      as (po & seen & Hrun & _ & Hnd & Hin).
    exists po. split_and!; [| |done..|].
    + unfold ForEachBlockInPostOrder, mbind, M_bind. rewrite Hrun. simpl.
      unfold mret, M_ret. by rewrite foldl_record_visit.
    + unfold FindReachableBlocks, ForEachBlockInReversePostOrder, mbind,
        M_bind.
      rewrite Hrun. simpl. unfold mret, M_ret.
      by rewrite foldr_insert_blocks.
    + intros x. by rewrite elem_of_list_to_set.
Qed.

Lemma FindReachableBlocks_is_post_order_set_witness :
  ∃ po,
    ForEachBlockInPostOrder Scenario.A record_visit [] Scenario.cfg
      = Ok (po, Scenario.cfg) ∧
    FindReachableBlocks Scenario.A Scenario.cfg
      = Ok (list_to_set po, Scenario.cfg) ∧
    NoDup po ∧
    ∀ x, x ∈ po ↔ rtc (real_edge Scenario.cfg) Scenario.A x.
Proof.
  destruct (FindReachableBlocks_is_post_order_set Scenario.cfg Scenario.A)
    as [_ Hreach].
  destruct Hreach as (po & Hpo & Hfind & Hnd & Hin & _).
  - apply cfg_closed_reachable; by_computation.
  - exists po. split_and!; [exact Hpo|exact Hfind|exact Hnd|exact Hin].
Defined.

(** ** The order of a depth-first search *)

Section paths_more.
Context (E : relation BasicBlock) (start : BasicBlock).
Implicit Types (x y d u v : BasicBlock) (p q : list BasicBlock).

Lemma rpath_suffix q y p : rpath E start (q ++ y :: p) → rpath E start (y :: p).
Proof.
  induction q as [|a q IH]; [done|]. intros Hp. apply IH.
  change ((a :: q) ++ y :: p) with (a :: (q ++ y :: p)) in Hp.
  apply rpath_inv_cons in Hp as [[Hnil _]|(x & p' & _ & Hp & _)]; [|done].
  by destruct q.
Qed.

(** A path can be cut down to one without repetition. *)
Lemma rpath_nodup x p :
  rpath E start (x :: p) →
  ∃ p', rpath E start (x :: p') ∧ NoDup (x :: p').
Proof.
  remember (x :: p) as q eqn:Hq. intros Hp. revert x p Hq.
  induction Hp as [|p a b Hp IH Hb]; intros x q [= <- <-].
  - exists []. split; [constructor|apply NoDup_singleton].
  - destruct (IH a p eq_refl) as (p' & Hp' & Hnd).
    destruct (decide (b ∈ a :: p')) as [Hin|Hin].
    + apply list_elem_of_split in Hin as (l1 & l2 & Heq).
      exists l2. rewrite Heq in Hp', Hnd. split.
      * by eapply rpath_suffix.
      * by apply NoDup_app in Hnd as (_ & _ & Hnd).
    + exists (a :: p'). split; [by constructor|].
      apply NoDup_cons. done.
Qed.

Lemma rpath_mono (E' : relation BasicBlock) p :
  (∀ x y, reaches E start x → E x y → E' x y) →
  rpath E start p → rpath E' start p.
Proof.
  intros Hsub. induction 1 as [|p a b Hp IH Hb]; [constructor|].
  constructor; [done|]. apply Hsub; [|done]. by exists p.
Qed.

(** The edges of a path without repetition are forward edges. *)
Lemma rpath_forward_edges q v p :
  q ≠ [] → rpath E start (q ++ v :: p) → NoDup (q ++ v :: p) →
  ∃ u q', q = u :: q' ∧ tc (forward_edge E start) v u.
Proof.
  induction q as [|a q IH]; [done|]. intros _ Hp Hnd.
  exists a, q. split; [done|].
  change ((a :: q) ++ v :: p) with (a :: (q ++ v :: p)) in Hp, Hnd.
  apply NoDup_cons in Hnd as [Ha Hnd].
  destruct q as [|b q].
  - simpl in *. apply rpath_inv_cons in Hp
      as [[? _]|(x & p' & [= <- <-] & Hp & Hx)]; [done|].
    apply tc_once. split; [done|]. intros Hdom. apply Ha. by apply Hdom.
  - destruct (IH ltac:(done)) as (u & q' & [= <- <-] & Htc).
    + apply rpath_inv_cons in Hp as [[? _]|(x & p' & _ & Hp & _)]; done.
    + done.
    + eapply tc_r; [exact Htc|].
      simpl in Hp. apply rpath_inv_cons in Hp
        as [[? _]|(x & p' & [= <- <-] & Hp & Hx)]; [done|].
      split; [done|]. intros Hdom. apply Ha. by apply Hdom.
Qed.

(** In a reducible graph the target of a retreating edge dominates its
    source. *)
Lemma retreating_edge_back u v :
  reducible E start → retreating E start u v → E u v →
  ¬ ¬ dominates E start v u.
Proof.
  intros Hred (p & Hp & Hnd & Hv) Huv Hndom.
  apply elem_of_cons in Hv as [->|Hv].
  - apply Hndom. intros q _. apply elem_of_cons. by left.
  - apply list_elem_of_split in Hv as (l1 & l2 & ->).
    destruct (rpath_forward_edges (u :: l1) v l2) as (u' & q' & [= <- <-] & Htc);
      [done..|].
    apply (Hred v). eapply tc_r; [exact Htc|]. by split.
Qed.

End paths_more.

Lemma nodup_split_unique (l1 l2 k1 k2 : list BasicBlock) (x : BasicBlock) :
  NoDup (l1 ++ x :: l2) → l1 ++ x :: l2 = k1 ++ x :: k2 →
  l1 = k1 ∧ l2 = k2.
Proof.
  revert k1. induction l1 as [|a l1 IH]; intros [|b k1] Hnd Heq;
    simpl in *.
  - by injection Heq as ->.
  - injection Heq as <- ->. apply NoDup_cons in Hnd as [Hx _].
    exfalso. apply Hx, elem_of_app. right. apply elem_of_cons. by left.
  - injection Heq as -> <-. apply NoDup_cons in Hnd as [Hx _].
    exfalso. apply Hx, elem_of_app. right. apply elem_of_cons. by left.
  - injection Heq as <- Heq. apply NoDup_cons in Hnd as [_ Hnd].
    destruct (IH k1 Hnd Heq) as [-> ->]. done.
Qed.

Lemma precedes_trans (l : list BasicBlock) (a b c : BasicBlock) :
  NoDup l → precedes l a b → precedes l b c → precedes l a c.
Proof.
  intros Hnd (l1 & l2 & l3 & Hl) (k1 & k2 & k3 & Hk).
  assert (Heq : (l1 ++ a :: l2) ++ b :: l3 = k1 ++ b :: (k2 ++ c :: k3)).
  { rewrite <- Hk, Hl. by rewrite <- app_assoc. }
  destruct (nodup_split_unique _ _ _ _ _ ltac:(by rewrite Heq, <- Hk) Heq)
    as [_ ->].
  exists l1, (l2 ++ b :: k2), k3. rewrite Hl. by rewrite <- !app_assoc.
Qed.

Lemma precedes_reverse (l : list BasicBlock) (a b : BasicBlock) :
  precedes l a b → precedes (reverse l) b a.
Proof.
  intros (l1 & l2 & l3 & ->). exists (reverse l3), (reverse l2), (reverse l1).
  rewrite !reverse_app, !reverse_cons, !reverse_app, !reverse_cons.
  by rewrite <- !app_assoc.
Qed.

Section dfs_order.
Context (succs : BasicBlock → result (list BasicBlock)) (start : BasicBlock).
Implicit Types (stack order po rest : list BasicBlock).
Implicit Types (seen : gset BasicBlock) (x y u v bb sb : BasicBlock).

Local Abbreviation E := (succ_edge succs).
Local Abbreviation inv := (dfs_inv succs start).
Local Abbreviation step := (dfs_step succs).

(** A property kept by pushes and by pops holds when the loop ends. *)
Lemma dfs_steps_invariant
    (I : list BasicBlock → gset BasicBlock → list BasicBlock → Prop) :
  (∀ bb rest seen order ss i sb,
     succs bb = Ok ss → list_find (λ sb, sb ∉ seen) ss = Some (i, sb) →
     inv (bb :: rest) seen order → I (bb :: rest) seen order →
     I (sb :: bb :: rest) ({[sb]} ∪ seen) order) →
  (∀ bb rest seen order ss,
     succs bb = Ok ss → list_find (λ sb, sb ∉ seen) ss = None →
     inv (bb :: rest) seen order → I (bb :: rest) seen order →
     I rest seen (order ++ [bb])) →
  ∀ s s', rtc step s s' →
    inv s.1.1 s.1.2 s.2 → I s.1.1 s.1.2 s.2 → I s'.1.1 s'.1.2 s'.2.
Proof.
  intros Hpush Hpop s s' Hsteps.
  induction Hsteps as [|s1 s2 s3 Hstep _ IH]; [done|].
  intros Hinv HI.
  assert (inv s2.1.1 s2.1.2 s2.2 ∧ I s2.1.1 s2.1.2 s2.2) as [? ?];
    [|by apply IH].
  inversion Hstep; subst; simpl in *; split;
    eauto using dfs_push_inv, dfs_pop_inv.
Qed.

Lemma emitted_by_snoc order v u bb :
  emitted_by order v u → emitted_by (order ++ [bb]) v u.
Proof.
  intros (l1 & l2 & -> & Hu). exists l1, (l2 ++ [bb]). split.
  - by rewrite <- app_assoc.
  - apply elem_of_cons in Hu as [->|Hu]; apply elem_of_cons; [by left|].
    right. apply elem_of_app. by left.
Qed.

Lemma edge_order_push bb rest seen order ss i sb :
  succs bb = Ok ss → list_find (λ sb, sb ∉ seen) ss = Some (i, sb) →
  inv (bb :: rest) seen order →
  edge_order_inv succs start order → edge_order_inv succs start order.
Proof. done. Qed.

Lemma edge_order_pop bb rest seen order ss :
  succs bb = Ok ss → list_find (λ sb, sb ∉ seen) ss = None →
  inv (bb :: rest) seen order →
  edge_order_inv succs start order →
  edge_order_inv succs start (order ++ [bb]).
Proof.
  intros Hss Hfind Hinv HK u v Hu Huv.
  apply elem_of_app in Hu as [Hu|Hu].
  - destruct (HK u v Hu Huv) as [Hem|Hre]; [left|by right].
    by apply emitted_by_snoc.
  - apply list_elem_of_singleton in Hu as ->.
    apply list_find_None in Hfind. rewrite Forall_forall in Hfind.
    assert (Hv : v ∈ seen).
    { unfold succ_edge, succs_of in Huv. rewrite Hss in Huv.
      specialize (Hfind v Huv). by apply dec_stable in Hfind. }
    apply (inv_seen _ _ _ _ _ Hinv) in Hv as [Hv|Hv].
    + right. exists rest. split_and!; [| |done].
      * by destruct (inv_path _ _ _ _ _ Hinv).
      * pose proof (inv_nodup _ _ _ _ _ Hinv) as Hnd.
        by apply NoDup_app in Hnd as (Hnd & _ & _).
    + left. apply list_elem_of_split in Hv as (l1 & l2 & ->).
      exists l1, (l2 ++ [bb]). split; [by rewrite <- app_assoc|].
      apply elem_of_cons. right. apply elem_of_app. right.
      by apply list_elem_of_singleton.
Qed.

(** Along a path without repetition of a reducible graph, each block is
    finished before the blocks that come earlier on the path. *)
Lemma simple_path_post_order (E0 : relation BasicBlock) seen po p x :
  reducible E start →
  (∀ a b, reaches E0 start a → E0 a b → E a b) →
  inv [] seen po → edge_order_inv succs start po →
  rpath E0 start (x :: p) → NoDup (x :: p) →
  ∀ d, d ∈ p → precedes po x d.
Proof.
  intros Hred Hsub Hinv HK. destruct (dfs_inv_final _ _ _ _ Hinv) as [Hnd Hin].
  remember (x :: p) as q eqn:Hq. intros Hp. revert x p Hq.
  induction Hp as [|p a b Hp IH Hb]; intros x q [= <- <-] Hndq d Hd.
  - by apply elem_of_nil in Hd.
  - apply NoDup_cons in Hndq as [Hbq Hndq].
    assert (Hba : precedes po b a).
    { assert (Ha : a ∈ po).
      { apply Hin. eapply rpath_reaches; [by eapply rpath_mono|].
        apply elem_of_cons. by left. }
      assert (Hab : E a b). { apply Hsub; [by exists p|done]. }
      destruct (HK a b Ha Hab) as [(l1 & l2 & Hpo & Hal)|Hre].
      - apply elem_of_cons in Hal as [->|Hal].
        + exfalso. apply Hbq, elem_of_cons. by left.
        + apply list_elem_of_split in Hal as (k1 & k2 & ->).
          by exists l1, k1, k2.
      - exfalso. apply (retreating_edge_back E start a b Hred Hre Hab).
        intros Hdom. apply Hbq. apply Hdom. by eapply rpath_mono. }
    apply elem_of_cons in Hd as [->|Hd]; [done|].
    eapply precedes_trans; [exact Hnd|exact Hba|]. by eapply IH.
Qed.

End dfs_order.

Section merge_order.
Context (succs : BasicBlock → result (list BasicBlock)) (start : BasicBlock).
Context (h m : BasicBlock) (B : BasicBlock → Prop).
Implicit Types (stack order po rest : list BasicBlock).
Implicit Types (seen : gset BasicBlock) (x y u v bb sb : BasicBlock).

Local Abbreviation E := (succ_edge succs).
Local Abbreviation inv := (dfs_inv succs start).

Hypothesis Hhm : h ≠ m.
Hypothesis Hdom : dominates E start h m.
Hypothesis Hfirst : ∃ ss, succs h = Ok (m :: ss).
Hypothesis HBm : ¬ B m.
Hypothesis HBstart : B start → start = h.
Hypothesis Hentry : ∀ u x, reaches E start u → E u x → B x → x ≠ h → B u.

Lemma merge_phase_initial : merge_phase h m B [start] {[start]} [].
Proof using All.
  destruct (decide (start = h)) as [->|Hne].
  - right. left. split_and!; [by exists []| |].
    + intros Hin. apply elem_of_singleton in Hin. done.
    + intros x _ Hx. by apply elem_of_singleton in Hx.
  - left. split_and!.
    + intros Hin. apply elem_of_singleton in Hin. done.
    + intros Hin. apply elem_of_singleton in Hin as ->.
      specialize (Hdom [] (rpath_start _ _)).
      by apply list_elem_of_singleton in Hdom.
    + intros x HB Hin. apply elem_of_singleton in Hin as ->. auto.
Qed.

Lemma merge_phase_push bb rest seen order ss i sb :
  succs bb = Ok ss → list_find (λ sb, sb ∉ seen) ss = Some (i, sb) →
  inv (bb :: rest) seen order → merge_phase h m B (bb :: rest) seen order →
  merge_phase h m B (sb :: bb :: rest) ({[sb]} ∪ seen) order.
Proof using All.
  intros Hss Hfind Hinv Hphase.
  apply list_find_Some in Hfind as (Hi & Hnew & Hbefore).
  assert (Hsb : E bb sb).
  { unfold succ_edge, succs_of. rewrite Hss. by eapply list_elem_of_lookup_2. }
  assert (Hbb : bb ∈ seen).
  { apply (inv_seen _ _ _ _ _ Hinv). left. apply elem_of_cons. by left. }
  destruct Hphase as [(Hh & Hm & HB)|[(Hstack & Hm & HB)|[(Hstack & HB)|?]]].
  - destruct (decide (sb = h)) as [->|Hne].
    + right. left. split_and!; [by eexists| |].
      * rewrite elem_of_union, elem_of_singleton. intros [?|?]; done.
      * intros x HBx Hx. apply elem_of_union in Hx as [Hx|Hx].
        -- by apply elem_of_singleton in Hx.
        -- by apply HB in Hx.
    + left. split_and!.
      * rewrite elem_of_union, elem_of_singleton. intros [?|?]; done.
      * rewrite elem_of_union, elem_of_singleton. intros [Hmsb|?]; [|done].
        subst sb.
        assert (Hp : rpath E start (m :: bb :: rest)).
        { destruct (inv_path _ _ _ _ _ Hinv) as [?|Hp]; [done|].
          by constructor. }
        apply Hdom in Hp. apply elem_of_cons in Hp as [?|Hp]; [done|].
        apply Hh, (inv_seen _ _ _ _ _ Hinv). by left.
      * intros x HBx Hx. apply elem_of_union in Hx as [Hx|Hx];
          [|by apply HB in Hx].
        apply elem_of_singleton in Hx as ->.
        apply (HB bb); [|done]. apply (Hentry bb sb); [|done..].
        by apply (inv_reach _ _ _ _ _ Hinv).
  - destruct Hstack as [rest' [= -> ->]]. destruct Hfirst as [ss' Hss'].
    rewrite Hss' in Hss. injection Hss as <-.
    assert (i = 0) as ->.
    { destruct i as [|i]; [done|]. exfalso.
      apply (Hbefore 0 m); [done|lia|done]. }
    injection Hi as <-. right. right. left. split.
    + exists [], (h :: rest'). split; [done|]. apply elem_of_cons. by left.
    + intros x HBx Hx. apply elem_of_union in Hx as [Hx|Hx]; [|by apply HB].
      by apply elem_of_singleton in Hx as ->.
  - destruct Hstack as (l1 & l2 & Hstack & Hh).
    right. right. left. split.
    + exists (sb :: l1), l2. split; [by rewrite Hstack|done].
    + intros x HBx Hx. apply elem_of_union in Hx as [Hx|Hx]; [|by apply HB].
      apply elem_of_singleton in Hx as ->. exfalso.
      assert (Hhseen : h ∈ seen).
      { apply (inv_seen _ _ _ _ _ Hinv). left. rewrite Hstack.
        apply elem_of_app. right. apply elem_of_cons. by right. }
      assert (Hne : sb ≠ h) by (intros ->; done).
      assert (Hbbh : bb = h).
      { apply HB; [|done]. apply (Hentry bb sb); [|done..].
        by apply (inv_reach _ _ _ _ _ Hinv). }
      pose proof (inv_nodup _ _ _ _ _ Hinv) as Hnd.
      apply NoDup_app in Hnd as (Hnd & _ & _). rewrite Hstack in Hnd.
      destruct l1 as [|t l1]; simpl in Hstack.
      * injection Hstack as -> _. done.
      * injection Hstack as -> _. subst t.
        change ((h :: l1) ++ m :: l2) with (h :: (l1 ++ m :: l2)) in Hnd.
        apply NoDup_cons in Hnd as [Hnin _]. apply Hnin.
        apply elem_of_app. right. apply elem_of_cons. by right.
  - by do 3 right.
Qed.

Lemma merge_phase_pop bb rest seen order ss :
  succs bb = Ok ss → list_find (λ sb, sb ∉ seen) ss = None →
  inv (bb :: rest) seen order → merge_phase h m B (bb :: rest) seen order →
  merge_phase h m B rest seen (order ++ [bb]).
Proof using All.
  intros Hss Hfind Hinv Hphase.
  apply list_find_None in Hfind. rewrite Forall_forall in Hfind.
  destruct Hphase as [?|[(Hstack & Hm & HB)|[(Hstack & HB)|[Hm HB]]]].
  - by left.
  - exfalso. destruct Hstack as [rest' [= -> ->]].
    destruct Hfirst as [ss' Hss']. rewrite Hss' in Hss. injection Hss as <-.
    apply (Hfind m); [|done]. apply elem_of_cons. by left.
  - destruct Hstack as (l1 & l2 & Hstack & Hh).
    destruct l1 as [|t l1]; simpl in Hstack; injection Hstack as -> ->.
    + do 3 right. split.
      * apply elem_of_app. right. by apply list_elem_of_singleton.
      * intros x HBx Hx. exfalso. apply elem_of_app in Hx as [Hx|Hx].
        -- assert (x = h) as ->.
           { apply HB; [done|]. apply (inv_seen _ _ _ _ _ Hinv). by right. }
           pose proof (inv_nodup _ _ _ _ _ Hinv) as Hnd.
           apply NoDup_app in Hnd as (_ & Hdisj & _).
           apply (Hdisj h); [|done]. apply elem_of_cons. by right.
        -- by apply list_elem_of_singleton in Hx as ->.
    + right. right. left. split; [by exists l1, l2|done].
  - do 3 right. split; [apply elem_of_app; by left|].
    intros x HBx Hx. apply elem_of_app in Hx as [Hx|Hx].
    + destruct (HB x HBx Hx) as (l1 & l2 & l3 & ->).
      exists l1, l2, (l3 ++ [bb]).
      rewrite <- !app_assoc. simpl. by rewrite <- !app_assoc.
    + apply list_elem_of_singleton in Hx as ->.
      apply list_elem_of_split in Hm as (l1 & l2 & ->).
      exists l1, l2, []. by rewrite <- app_assoc.
Qed.

(** The block visited first from [h] is finished before every block of
    [B] that the search reaches. *)
Lemma merge_phase_final seen po :
  inv [] seen po → merge_phase h m B [] seen po →
  ∀ x, B x → x ∈ po → precedes po m x.
Proof using Type.
  intros Hinv [(_ & _ & HB)|[([rest ?] & _)|[((l1 & l2 & Hs & _) & _)|[_ HB]]]].
  - intros x HBx Hx. exfalso. apply (HB x HBx).
    apply (inv_seen _ _ _ _ _ Hinv). by right.
  - done.
  - by destruct l1.
  - done.
Qed.

End merge_order.

(** ** Structured order *)

Section relation_equiv.
Context (E E' : relation BasicBlock) (start : BasicBlock).
Hypothesis HE : ∀ x y, E x y ↔ E' x y.

Lemma rpath_equiv p : rpath E start p ↔ rpath E' start p.
Proof using HE.
  split; apply rpath_mono; intros x y _; apply HE.
Qed.

Lemma reaches_equiv x : reaches E start x ↔ reaches E' start x.
Proof using HE.
  unfold reaches. split; intros [p Hp]; exists p; by apply rpath_equiv.
Qed.

Lemma dominates_equiv d x : dominates E start d x ↔ dominates E' start d x.
Proof using HE.
  unfold dominates. split; intros H p Hp; apply H; by apply rpath_equiv.
Qed.

Lemma reducible_equiv : reducible E' start → reducible E start.
Proof using HE.
  intros Hred x Htc. apply (Hred x).
  assert (Hsub : ∀ a b, tc (forward_edge E start) a b →
                        tc (forward_edge E' start) a b).
  { intros a b Hab. induction Hab as [a b [Hab Hnd]|a b b' [Hab Hnd] _ IH].
    - apply tc_once. split; [by apply HE|]. by rewrite <- dominates_equiv.
    - eapply tc_l; [|exact IH]. split; [by apply HE|].
      by rewrite <- dominates_equiv. }
  by apply Hsub.
Qed.

End relation_equiv.

Section structured_graph.
Context (c : CFG) (func : list BasicBlock).
Implicit Types (x y h m : BasicBlock) (ls : list label).

Lemma resolve_elem ls bs y :
  mapM (M := option) (λ s, id2block_ c !! s) ls = Some bs →
  y ∈ bs ↔ ∃ s, s ∈ ls ∧ id2block_ c !! s = Some y.
Proof.
  intros Hbs. apply mapM_Some in Hbs. split.
  - intros Hy. apply list_elem_of_lookup in Hy as [i Hi].
    destruct (Forall2_lookup_r _ _ _ _ _ Hbs Hi) as (s & Hs & Hlook).
    exists s. split; [by eapply list_elem_of_lookup_2|done].
  - intros (s & Hs & Hy). apply list_elem_of_lookup in Hs as [i Hi].
    destruct (Forall2_lookup_l _ _ _ _ _ Hbs Hi) as (b & Hb & Hlook).
    assert (b = y) as <- by congruence. by eapply list_elem_of_lookup_2.
Qed.

Lemma fill_structured_succs fn cache0 :
  labels_registered c fn →
  ∃ cache,
    for_each fn (λ blk,
      ss ← mapM block (structured_labels blk);
      modify (λ c',
        set_block2structured_succs
          (<[blk := ss]> (block2structured_succs_ c')) c'))
      (set_block2structured_succs cache0 c)
    = Ok (tt, set_block2structured_succs cache c) ∧
    ∀ b, cache !! b
         = if decide (b ∈ fn)
           then mapM (M := option) (λ s, id2block_ c !! s)
                  (structured_labels b)
           else cache0 !! b.
Proof.
  revert cache0. induction fn as [|blk fn IH]; intros cache0 Hreg.
  - exists cache0. split; [done|]. intros b. rewrite decide_False; [done|].
    apply not_elem_of_nil.
  - apply Forall_cons in Hreg as [Hblk Hreg].
    destruct (mapM_is_Some_2 (λ s, id2block_ c !! s) (structured_labels blk))
      as [ss Hss]; [done|].
    destruct (IH (<[blk := ss]> cache0) Hreg) as (cache & Hrun & Hcache).
    exists cache. split.
    + cbn [for_each]. unfold mbind at 1, M_bind at 1.
      unfold mbind at 1, M_bind at 1.
      rewrite (mapM_block_run (set_block2structured_succs cache0 c)).
      simpl. rewrite Hss. simpl. exact Hrun.
    + intros b. rewrite Hcache. destruct (decide (b = blk)) as [->|Hne].
      * rewrite (decide_True (P := blk ∈ blk :: fn))
          by (apply elem_of_cons; by left).
        case_decide; [done|]. by rewrite lookup_insert_eq.
      * rewrite lookup_insert_ne by done.
        case_decide as Hin.
        -- rewrite decide_True; [done|]. apply elem_of_cons. by right.
        -- rewrite decide_False; [done|]. rewrite elem_of_cons. tauto.
Qed.

Lemma ComputeStructuredSuccessors_run :
  labels_registered c func →
  ∃ cache,
    ComputeStructuredSuccessors func c
    = Ok (tt, set_block2structured_succs cache c) ∧
    ∀ b, cache !! b
         = if decide (b ∈ func)
           then mapM (M := option) (λ s, id2block_ c !! s)
                  (structured_labels b)
           else None.
Proof.
  intros Hreg. destruct (fill_structured_succs func ∅ Hreg)
    as (cache & Hrun & Hcache).
  exists cache. split; [|done].
  unfold ComputeStructuredSuccessors.
  rewrite (bind_run _ _ c tt (set_block2structured_succs ∅ c)) by done.
  exact Hrun.
Qed.

Lemma structured_succs_edge cache x y :
  labels_registered c func →
  (∀ b, cache !! b
        = if decide (b ∈ func)
          then mapM (M := option) (λ s, id2block_ c !! s)
                 (structured_labels b)
          else None) →
  succ_edge (structured_succs (set_block2structured_succs cache c)) x y
  ↔ structured_edge c func x y.
Proof.
  intros Hreg Hcache. unfold succ_edge, succs_of, structured_succs.
  simpl. rewrite Hcache. unfold structured_edge. case_decide as Hin.
  - unfold labels_registered in Hreg. rewrite Forall_forall in Hreg.
    destruct (mapM_is_Some_2 (λ s, id2block_ c !! s) (structured_labels x))
      as [ss Hss]; [by apply Hreg|].
    rewrite Hss. simpl. rewrite (resolve_elem _ _ _ Hss). tauto.
  - simpl. split; [by inversion 1|tauto].
Qed.

(** Whatever the object holds, rebuilding the cache returns or fails on a
    label that is not registered; the blocks it stores are registered. *)
Lemma fill_structured_succs_registered fn cache0 :
  (∀ b ss y, cache0 !! b = Some ss → y ∈ ss →
             y ∈ (map_img (id2block_ c) : gset BasicBlock)) →
  match for_each fn (λ blk,
          ss ← mapM block (structured_labels blk);
          modify (λ c',
            set_block2structured_succs
              (<[blk := ss]> (block2structured_succs_ c')) c'))
          (set_block2structured_succs cache0 c) with
  | Ok (_, c1) =>
      ∃ cache, c1 = set_block2structured_succs cache c ∧
        ∀ b ss y, cache !! b = Some ss → y ∈ ss →
                  y ∈ (map_img (id2block_ c) : gset BasicBlock)
  | AssertFail => True
  | OutOfFuel => False
  end.
Proof.
  revert cache0. induction fn as [|blk fn IH]; intros cache0 Hcache.
  - simpl. by exists cache0.
  - cbn [for_each]. unfold mbind at 1, M_bind at 1.
    unfold mbind at 1, M_bind at 1.
    rewrite (mapM_block_run (set_block2structured_succs cache0 c)). simpl.
    destruct (mapM (M := option) _ (structured_labels blk)) as [ss|] eqn:Hss;
      [|done].
    simpl. apply (IH (<[blk := ss]> cache0)).
    intros b ss' y Hb Hy. rewrite lookup_insert in Hb.
    case_decide; [|by eapply Hcache].
    injection Hb as <-. apply (resolve_elem _ _ _ Hss) in Hy as (s & _ & Hs).
    by eapply elem_of_map_img_2.
Qed.

Lemma ComputeStructuredSuccessors_registered :
  match ComputeStructuredSuccessors func c with
  | Ok (_, c1) =>
      ∃ cache, c1 = set_block2structured_succs cache c ∧
        ∀ b ss y, cache !! b = Some ss → y ∈ ss →
                  y ∈ (map_img (id2block_ c) : gset BasicBlock)
  | AssertFail => True
  | OutOfFuel => False
  end.
Proof.
  unfold ComputeStructuredSuccessors.
  rewrite (bind_run _ _ c tt (set_block2structured_succs ∅ c)) by done.
  apply fill_structured_succs_registered. by intros b ss y.
Qed.

Lemma ComputeStructuredOrder_fuel root order :
  ComputeStructuredOrder func root order c ≠ OutOfFuel.
Proof.
  unfold ComputeStructuredOrder. unfold mbind at 1, M_bind at 1.
  pose proof ComputeStructuredSuccessors_registered as Hfill.
  destruct (ComputeStructuredSuccessors func c) as [[[] c1]| |];
    [|discriminate|done].
  destruct Hfill as (cache & -> & Hcache).
  rewrite (bind_run get _ _ _ _ eq_refl).
  unfold mbind, M_bind, lift_result.
  pose proof (dfs_loop_fuel
    (structured_succs (set_block2structured_succs cache c))
    (map_img (id2block_ c))
    (traversal_fuel (set_block2structured_succs cache c))
    [root] {[root]} []) as Hfuel.
  destruct (dfs_loop _ _ _ _ _) as [[po seen']| |]; [discriminate..|].
  exfalso. apply Hfuel; [done| |unfold traversal_fuel; simpl|done].
  - intros x ss y [= <-] Hy. simpl in Hy.
    destruct (cache !! x) as [ss|] eqn:Hx; [by eapply Hcache|].
    by apply elem_of_nil in Hy.
  - assert (size (map_img (id2block_ c) ∖ {[root]} : gset BasicBlock)
            ≤ size (id2block_ c)); [|lia].
    etrans; [|apply size_map_img_le]. apply subseteq_size.
    intros x. rewrite elem_of_difference. tauto.
Qed.

End structured_graph.

(** C5, amended.  For a well-structured function whose labels are all
    registered and which holds every block its root reaches,
    [ComputeStructuredOrder] returns an order without repetition in which:
    the immediate dominator of each block reachable from the root comes
    before the block; every block of the body of a construct comes before
    the merge block of the construct's header; and exactly the blocks
    reachable from the root over structured successors occur, that is over
    branch targets and declared merge and continue blocks.  The blocks the
    branches reach are among them, and so is a declared merge or continue
    block that no branch reaches.  Dominators are taken over real edges,
    the body of a construct over structured edges. *)
Theorem ComputeStructuredOrder_well_structured
    (c : CFG) (func : list BasicBlock) (root : BasicBlock) :
  labels_registered c func →
  (∀ x, rtc (real_edge c) root x → x ∈ func) →
  well_structured c func root →
  ∃ order c',
    ComputeStructuredOrder func root [] c = Ok (order, c') ∧
    NoDup order ∧
    (∀ d x, rtc (real_edge c) root x →
            immediate_dominator (real_edge c) root d x →
            precedes order d x) ∧
    (∀ h m x, h ∈ func → merge_block c h m →
              construct_body c func root h m x → x ∈ order →
              precedes order x m) ∧
    (∀ x, x ∈ order ↔ rtc (structured_edge c func) root x) ∧
    (∀ x, rtc (real_edge c) root x → x ∈ order).
Proof.
  intros Hreg Hfunc [Hred Hmerge Hentry].
  destruct (ComputeStructuredSuccessors_run c func Hreg)
    as (cache & Hcss & Hcache).
  set (c1 := set_block2structured_succs cache c) in *.
  set (succs := structured_succs c1).
  assert (HE : ∀ x y, succ_edge succs x y ↔ structured_edge c func x y).
  { intros x y. by apply structured_succs_edge. }
  destruct (dfs_loop_returns succs root ({[root]} ∪ map_img (id2block_ c))
    (traversal_fuel c1) [root] {[root]} []) as (po & seen & Hrun).
  { intros x _. by eexists. }
  { intros x [p Hp]. apply rpath_inv_cons in Hp
      as [[_ ->]|(a & p' & -> & _ & Hx)]; apply elem_of_union.
    - left. by apply elem_of_singleton.
    - right. apply HE in Hx as (_ & s & _ & Hs). by eapply elem_of_map_img_2. }
  { apply dfs_inv_initial. }
  { unfold traversal_fuel. simpl.
    assert (size (({[root]} ∪ map_img (id2block_ c)) ∖ {[root]}
                  : gset BasicBlock) ≤ size (id2block_ c)); [|lia].
    etrans; [|apply size_map_img_le]. apply subseteq_size.
    intros x. rewrite elem_of_difference, elem_of_union. tauto. }
  pose proof (dfs_loop_steps _ _ _ _ _ _ _ Hrun) as Hsteps.
  assert (Hinv : dfs_inv succs root [] seen po).
  { apply (dfs_steps_inv _ _ _ _ Hsteps), dfs_inv_initial. }
  destruct (dfs_inv_final _ _ _ _ Hinv) as [Hnd Hin].
  assert (HK : edge_order_inv succs root po).
  { apply (dfs_steps_invariant succs root
             (λ _ _ order, edge_order_inv succs root order)
             (edge_order_push succs root) (edge_order_pop succs root)
             _ _ Hsteps); [apply dfs_inv_initial|].
    intros u v Hu. by apply elem_of_nil in Hu. }
  assert (Hsub : ∀ a b, reaches (real_edge c) root a → real_edge c a b →
                        succ_edge succs a b).
  { intros a b Ha Hab. apply HE. split; [by apply Hfunc, reaches_rtc|].
    destruct Hab as (s & Hs & Hlook). exists s. split; [|done].
    unfold structured_labels. rewrite !elem_of_app. auto. }
  exists (reverse po), c1. split_and!.
  - unfold ComputeStructuredOrder.
    rewrite (bind_run _ _ _ _ _ Hcss).
    rewrite (bind_run get _ c1 c1 c1) by done.
    unfold mbind, M_bind, lift_result. fold succs. rewrite Hrun. done.
  - by rewrite reverse_Permutation.
  - intros d x Hx [[Hne Hdom] _].
    apply reaches_rtc in Hx as [p Hp].
    apply rpath_nodup in Hp as (p' & Hp' & Hndp).
    apply precedes_reverse.
    eapply (simple_path_post_order succs root (real_edge c));
      [|exact Hsub|exact Hinv|exact HK|exact Hp'|exact Hndp|].
    + eapply reducible_equiv; [exact HE|exact Hred].
    + specialize (Hdom p' Hp').
      by apply elem_of_cons in Hdom as [?|?].
  - intros h m x Hh Hm HB Hx.
    rewrite elem_of_reverse in Hx. apply precedes_reverse.
    assert (Hhr : reaches (structured_edge c func) root h).
    { apply Hin in Hx as [p Hp]. apply (rpath_equiv _ _ _ HE) in Hp.
      eapply rpath_reaches; [exact Hp|]. by apply HB. }
    destruct (Hmerge h m Hh Hm Hhr) as [Hhm Hdom].
    eapply (merge_phase_final succs root h m); [exact Hinv| |exact HB|exact Hx].
    assert (Hdom' : dominates (succ_edge succs) root h m).
    { by apply (dominates_equiv _ _ _ HE). }
    assert (Hfirst : ∃ ss, succs h = Ok (m :: ss)).
    { unfold succs, structured_succs. simpl. rewrite Hcache.
      rewrite decide_True by done.
      destruct Hm as (ml & Hml & Hlook). unfold structured_labels.
      rewrite Hml. simpl. rewrite Hlook. simpl.
      unfold labels_registered in Hreg. rewrite Forall_forall in Hreg.
      specialize (Hreg h Hh). unfold structured_labels in Hreg.
      rewrite Hml in Hreg. apply Forall_cons in Hreg as [_ Hreg].
      destruct (mapM_is_Some_2 (λ s, id2block_ c !! s) _ Hreg) as [ss ->].
      by exists ss. }
    assert (HBm : ¬ construct_body c func root h m m).
    { intros [_ Hn]. apply Hn. intros p _. apply elem_of_cons. by left. }
    assert (HBstart : construct_body c func root h m root → root = h).
    { intros [Hd _]. specialize (Hd [] (rpath_start _ _)).
      by apply list_elem_of_singleton in Hd. }
    assert (Hentry' : ∀ u x, reaches (succ_edge succs) root u →
      succ_edge succs u x →
      construct_body c func root h m x → x ≠ h →
      construct_body c func root h m u).
    { intros u y Hu Huy. apply HE in Huy.
      apply (reaches_equiv _ _ _ HE) in Hu. by apply (Hentry h m). }
    apply (dfs_steps_invariant succs root
             (merge_phase h m (construct_body c func root h m))
             (merge_phase_push succs root h m _ Hhm Hdom' Hfirst HBm
                HBstart Hentry')
             (merge_phase_pop succs root h m _ Hhm Hdom' Hfirst HBm
                HBstart Hentry')
             _ _ Hsteps); [apply dfs_inv_initial|].
    by apply (merge_phase_initial succs root h m _ Hhm Hdom' Hfirst HBm
                HBstart Hentry').
  - intros x. rewrite elem_of_reverse, Hin.
    rewrite (reaches_equiv _ _ _ HE). apply reaches_rtc.
  - intros x Hx. rewrite elem_of_reverse. apply Hin.
    apply reaches_rtc in Hx as [p Hp]. exists p.
    by apply (rpath_mono (real_edge c) root (succ_edge succs)).
Qed.

(** ** The scenario of the spec is well-structured *)

Lemma rpath_contains_start (E : relation BasicBlock) start p :
  rpath E start p → start ∈ p.
Proof.
  induction 1 as [|p a b Hp IH Hb]; apply elem_of_cons; [by left|by right].
Qed.

Module ScenarioFacts.
Import Scenario.

Ltac split_elem H :=
  repeat (apply elem_of_cons in H as [H|H]);
  try (by apply elem_of_nil in H).

Lemma structured_edges x y :
  structured_edge cfg func x y →
  (x, y) ∈ [(A, B); (B, D); (B, C); (C, B); (C, D)].
Proof.
  intros [Hx (s & Hs & Hy)].
  split_elem Hx; subst x; vm_compute in Hs; split_elem Hs; subst s;
    vm_compute in Hy; injection Hy as <-; by_computation.
Qed.

Lemma real_edges x y :
  x ∈ func → real_edge cfg x y →
  (x, y) ∈ [(A, B); (B, C); (C, B); (C, D)].
Proof.
  intros Hx (s & Hs & Hy).
  split_elem Hx; subst x; vm_compute in Hs; split_elem Hs; subst s;
    vm_compute in Hy; injection Hy as <-; by_computation.
Qed.

Lemma function_closed x : rtc (real_edge cfg) A x → x ∈ func.
Proof.
  revert x. apply rtc_ind_r; [by_computation|].
  intros x y _ Hxy Hx. apply (real_edges x y Hx) in Hxy.
  split_elem Hxy; injection Hxy as _ ->; by_computation.
Qed.

Abbreviation SE := (structured_edge cfg func).
Abbreviation RE := (real_edge cfg).

Ltac solve_edge l :=
  first [ split; [by_computation|]; exists l; split; [by_computation|reflexivity]
        | exists l; split; [by_computation|reflexivity] ].

Lemma se_A_B : SE A B.
Proof. solve_edge 2%N. Qed.

Lemma se_B_C : SE B C.
Proof. solve_edge 3%N. Qed.

Lemma re_A_B : RE A B.
Proof. solve_edge 2%N. Qed.

Lemma re_B_C : RE B C.
Proof. solve_edge 3%N. Qed.

Lemma dominates_refl (E : relation BasicBlock) start x : dominates E start x x.
Proof. intros p _. apply elem_of_cons. by left. Qed.

Lemma B_dominates_C : dominates SE A B C.
Proof.
  intros p Hp. apply rpath_inv_cons in Hp
    as [[_ [=]]|(x & p' & -> & _ & Hx)].
  apply structured_edges in Hx. split_elem Hx; try discriminate Hx.
  injection Hx as ->. by_computation.
Qed.

Lemma B_dominates_D : dominates SE A B D.
Proof.
  intros p Hp. apply rpath_inv_cons in Hp
    as [[_ [=]]|(x & p' & -> & Hp & Hx)].
  apply structured_edges in Hx. split_elem Hx; try discriminate Hx;
    injection Hx as ->.
  - by_computation.
  - apply elem_of_cons. right. by apply B_dominates_C.
Qed.

Lemma B_dominates_C_real : dominates RE A B C.
Proof.
  intros p Hp. apply rpath_inv_cons in Hp
    as [[_ [=]]|(x & p' & -> & Hp & Hx)].
  apply real_edges in Hx.
  - split_elem Hx; try discriminate Hx. injection Hx as ->. by_computation.
  - apply function_closed, reaches_rtc. eapply rpath_reaches; [exact Hp|].
    apply elem_of_cons. by left.
Qed.

Lemma forward_edge_increasing a b :
  forward_edge SE A a b → (id a < id b)%N.
Proof.
  intros [Hab Hnd]. apply structured_edges in Hab.
  split_elem Hab; injection Hab as -> ->; try done.
  exfalso. apply Hnd, B_dominates_C.
Qed.

Lemma forward_path_increasing a b :
  tc (forward_edge SE A) a b → (id a < id b)%N.
Proof.
  induction 1 as [a b Hab|a b b' Hab _ IH].
  - by apply forward_edge_increasing.
  - apply forward_edge_increasing in Hab. lia.
Qed.

Lemma merge_block_inv h m :
  h ∈ func → merge_block cfg h m → h = B ∧ m = D.
Proof.
  intros Hh (ml & Hml & Hm). split_elem Hh; subst h; try discriminate Hml.
  injection Hml as <-. vm_compute in Hm. by injection Hm as <-.
Qed.

Lemma scenario_well_structured : well_structured cfg func A.
Proof.
  split.
  - intros x Hx. apply forward_path_increasing in Hx. lia.
  - intros h m Hh Hm _. destruct (merge_block_inv h m Hh Hm) as [-> ->].
    split; [done|apply B_dominates_D].
  - intros h m u x Hh Hm _ _ Hux [Hd Hnd] Hne.
    destruct (merge_block_inv h m Hh Hm) as [-> ->].
    apply structured_edges in Hux.
    split_elem Hux; injection Hux as -> ->; try done.
    + exfalso. apply Hnd, dominates_refl.
    + split; [apply dominates_refl|]. intros HD.
      specialize (HD [A] (rpath_step _ _ _ _ _ (rpath_start _ _) se_A_B)).
      split_elem HD; discriminate HD.
    + exfalso. apply Hnd, dominates_refl.
Qed.

Lemma B_immediate_dominator_of_C : immediate_dominator RE A B C.
Proof.
  split; [split; [done|apply B_dominates_C_real]|].
  intros d [Hne Hd].
  specialize (Hd [B; A]
    (rpath_step _ _ _ _ _
       (rpath_step _ _ _ _ _ (rpath_start _ _) re_A_B) re_B_C)).
  split_elem Hd; subst d; [done|apply dominates_refl|].
  intros p Hp. by eapply rpath_contains_start.
Qed.

Lemma C_in_body_of_B : construct_body cfg func A B D C.
Proof.
  split; [apply B_dominates_C|]. intros HD.
  specialize (HD [B; A]
    (rpath_step _ _ _ _ _
       (rpath_step _ _ _ _ _ (rpath_start _ _) se_A_B) se_B_C)).
  split_elem HD; discriminate HD.
Qed.

End ScenarioFacts.

Lemma ComputeStructuredOrder_well_structured_witness :
  ∃ order c',
    ComputeStructuredOrder Scenario.func Scenario.A [] Scenario.cfg
      = Ok (order, c') ∧
    NoDup order ∧
    precedes order Scenario.B Scenario.C ∧
    precedes order Scenario.C Scenario.D.
Proof.
  destruct (ComputeStructuredOrder_well_structured
              Scenario.cfg Scenario.func Scenario.A)
    as (order & c' & Hrun & Hnd & Hidom & Hmerge & Hin & _).
  - by_computation.
  - apply ScenarioFacts.function_closed.
  - apply ScenarioFacts.scenario_well_structured.
  - exists order, c'. split_and!; [exact Hrun|exact Hnd| |].
    + apply Hidom; [|apply ScenarioFacts.B_immediate_dominator_of_C].
      eapply rtc_l; [apply ScenarioFacts.re_A_B|].
      eapply rtc_l; [apply ScenarioFacts.re_B_C|]. done.
    + apply (Hmerge Scenario.B).
      * by_computation.
      * exists 4%N. split; reflexivity.
      * apply ScenarioFacts.C_in_body_of_B.
      * apply Hin. eapply rtc_l; [apply ScenarioFacts.se_A_B|].
        eapply rtc_l; [apply ScenarioFacts.se_B_C|]. done.
Defined.

(** ** A merge block that no branch reaches *)

Module UnreachableMergeFacts.
Import UnreachableMerge.

Ltac split_elem H :=
  repeat (apply elem_of_cons in H as [H|H]);
  try (by apply elem_of_nil in H).

Lemma selection_structured_edges x y :
  structured_edge cfg func x y →
  (x, y) ∈ [(header, merge); (header, case_block)].
Proof.
  intros [Hx (s & Hs & Hy)].
  split_elem Hx; subst x; vm_compute in Hs; split_elem Hs; subst s;
    vm_compute in Hy; injection Hy as <-; by_computation.
Qed.

Lemma selection_real_edges x y :
  x ∈ [header; case_block] → real_edge cfg x y →
  (x, y) = (header, case_block).
Proof.
  intros Hx (s & Hs & Hy).
  split_elem Hx; subst x; vm_compute in Hs; split_elem Hs; subst s;
    vm_compute in Hy; by injection Hy as <-.
Qed.

(** The branches lead from the header to the block it branches to, and no
    further. *)
Lemma real_reachable x :
  rtc (real_edge cfg) header x → x ∈ [header; case_block].
Proof.
  revert x. apply rtc_ind_r; [by_computation|].
  intros x y _ Hxy Hx. apply (selection_real_edges x y Hx) in Hxy.
  injection Hxy as _ ->. by_computation.
Qed.

Lemma selection_function_closed x : rtc (real_edge cfg) header x → x ∈ func.
Proof.
  intros Hx. apply real_reachable in Hx.
  split_elem Hx; subst x; by_computation.
Qed.

Lemma selection_forward_path_increasing a b :
  tc (forward_edge (structured_edge cfg func) header) a b → (id a < id b)%N.
Proof.
  assert (Hedge : ∀ a b, forward_edge (structured_edge cfg func) header a b →
                         (id a < id b)%N).
  { intros a' b' [Hab _]. apply selection_structured_edges in Hab.
    split_elem Hab; by injection Hab as -> ->. }
  induction 1 as [a b Hab|a b b' Hab _ IH].
  - by apply Hedge.
  - apply Hedge in Hab. lia.
Qed.

Lemma selection_merge_block_inv h m :
  h ∈ func → merge_block cfg h m → h = header ∧ m = merge.
Proof.
  intros Hh (ml & Hml & Hm). split_elem Hh; subst h; try discriminate Hml.
  injection Hml as <-. vm_compute in Hm. by injection Hm as <-.
Qed.

Lemma function_well_structured : well_structured cfg func header.
Proof.
  split.
  - intros x Hx. apply selection_forward_path_increasing in Hx. lia.
  - intros h m Hh Hm _.
    destruct (selection_merge_block_inv h m Hh Hm) as [-> ->].
    split; [done|]. intros p Hp. by eapply rpath_contains_start.
  - intros h m u x Hh Hm _ _ Hux [Hd Hnd] Hne.
    destruct (selection_merge_block_inv h m Hh Hm) as [-> ->].
    apply selection_structured_edges in Hux.
    split_elem Hux; injection Hux as -> ->.
    + exfalso. apply Hnd. intros p _. apply elem_of_cons. by left.
    + split; [intros p _; apply elem_of_cons; by left|]. intros HD.
      specialize (HD [] (rpath_start _ _)).
      split_elem HD; discriminate HD.
Qed.

End UnreachableMergeFacts.

(** C5, refuted: a header that declares the merge block 3 and branches to
    block 2 only, block 2 naming no successor.  The function is
    well-structured and its structured order is header, block 2, merge
    block: the merge block is a structured successor of the header, so the
    search emits it, though no branch leads to it. *)
Lemma ComputeStructuredOrder_emits_unreachable_merge :
  ¬ structured_order_excludes_unreachable.
Proof.
  intros Hclaim.
  destruct (Hclaim UnreachableMerge.cfg UnreachableMerge.func
              UnreachableMerge.header)
    as (order & c' & Hrun & _ & _ & Hreach).
  - by_computation.
  - apply UnreachableMergeFacts.selection_function_closed.
  - apply UnreachableMergeFacts.function_well_structured.
  - assert (Horder : order = [UnreachableMerge.header;
                              UnreachableMerge.case_block;
                              UnreachableMerge.merge]).
    { assert (Hq : query (ComputeStructuredOrder UnreachableMerge.func
                            UnreachableMerge.header []) UnreachableMerge.cfg
                   = Ok order).
      { unfold query. by rewrite Hrun. }
      vm_compute in Hq. by injection Hq as <-. }
    specialize (Hreach UnreachableMerge.merge).
    apply UnreachableMergeFacts.real_reachable in Hreach.
    + repeat (apply elem_of_cons in Hreach as [Hreach|Hreach]);
        [discriminate Hreach|discriminate Hreach|].
      by apply elem_of_nil in Hreach.
    + rewrite Horder. by_computation.
Qed.

(** The blocks the branches reach leave the merge block out. *)
Example unreachable_merge_reachable_blocks :
  query (FindReachableBlocks UnreachableMerge.header) UnreachableMerge.cfg
  = Ok (list_to_set [UnreachableMerge.header; UnreachableMerge.case_block]).
Proof. vm_compute. reflexivity. Qed.

Example unreachable_merge_structured_order :
  query (ComputeStructuredOrder UnreachableMerge.func
           UnreachableMerge.header []) UnreachableMerge.cfg
  = Ok [UnreachableMerge.header; UnreachableMerge.case_block;
        UnreachableMerge.merge].
Proof. reflexivity. Qed.

(** ** The scenario of the spec, evaluated *)

Example scenario_preds_of_B :
  query (preds 2) Scenario.cfg = Ok [1%N; 3%N].
Proof. reflexivity. Qed.

Example scenario_preds_of_pseudo_exit :
  query (preds 1000) Scenario.cfg = Ok [4%N].
Proof. reflexivity. Qed.

Example scenario_structured_order :
  query (ComputeStructuredOrder Scenario.func Scenario.A []) Scenario.cfg
  = Ok [Scenario.A; Scenario.B; Scenario.C; Scenario.D].
Proof. reflexivity. Qed.

Example scenario_post_order :
  query (ForEachBlockInPostOrder Scenario.A record_visit []) Scenario.cfg
  = Ok [Scenario.D; Scenario.C; Scenario.B; Scenario.A].
Proof. reflexivity. Qed.

Example scenario_reachable_blocks :
  query (FindReachableBlocks Scenario.A) Scenario.cfg
  = Ok (list_to_set [Scenario.A; Scenario.B; Scenario.C; Scenario.D]).
Proof. vm_compute. reflexivity. Qed.

(** Forgetting the loop header of the scenario leaves it in the lists of
    its continue and merge blocks: the terminator names block 3 once. *)
Example scenario_forget_header :
  query (ForgetBlock Scenario.B ;; preds 3) Scenario.cfg = Ok [2%N] ∧
  query (ForgetBlock Scenario.B ;; preds 4) Scenario.cfg = Ok [2%N; 3%N].
Proof. split; reflexivity. Qed.

(** ** The nested constructs, evaluated *)

Example nested_structured_order :
  query (ComputeStructuredOrder Nested.func Nested.entry []) Nested.cfg
  = Ok [Nested.entry; Nested.loop_header; Nested.sel_header;
        Nested.then_block; Nested.sel_merge; Nested.continue_block;
        Nested.loop_merge].
Proof. reflexivity. Qed.

Example nested_preds_of_loop_merge :
  query (preds 7) Nested.cfg = Ok [2%N; 5%N].
Proof. reflexivity. Qed.

(** * Further properties of the edge table *)

(** ** Erasing the first occurrence *)

Section erase_more.
Implicit Types (x y : label) (l : list label).

Lemma erase_first_notin x l : x ∉ l → erase_first x l = l.
Proof.
  induction l as [|y l IH]; intros Hn; [done|]. simpl.
  apply not_elem_of_cons in Hn as [Hne Hn].
  rewrite decide_False by congruence. by rewrite IH.
Qed.

Lemma erase_first_comm x y l :
  erase_first x (erase_first y l) = erase_first y (erase_first x l).
Proof.
  induction l as [|z l IH]; [done|]. simpl.
  destruct (decide (z = y)) as [Hzy|Hzy], (decide (z = x)) as [Hzx|Hzx];
    simpl; rewrite ?(decide_True (P := z = x)) by done;
    rewrite ?(decide_True (P := z = y)) by done;
    rewrite ?(decide_False (P := z = x)) by done;
    rewrite ?(decide_False (P := z = y)) by done; try done.
  - by subst.
  - by rewrite IH.
Qed.

Lemma iter_erase_first_swap x y n k l :
  Nat.iter n (erase_first x) (Nat.iter k (erase_first y) l)
  = Nat.iter k (erase_first y) (Nat.iter n (erase_first x) l).
Proof.
  induction n as [|n IHn]; simpl; [done|]. rewrite IHn. clear IHn.
  induction k as [|k IHk]; simpl; [done|].
  by rewrite erase_first_comm, IHk.
Qed.

Lemma erase_first_middle x l1 l2 :
  x ∉ l1 → erase_first x (l1 ++ x :: l2) = l1 ++ l2.
Proof.
  intros Hn. induction l1 as [|y l1 IH]; simpl.
  - by rewrite decide_True.
  - apply not_elem_of_cons in Hn as [Hx Hn].
    rewrite decide_False by done. by rewrite IH.
Qed.

Lemma erase_first_sublist x l : erase_first x l `sublist_of` l.
Proof.
  induction l as [|y l IH]; [done|]. simpl. case_decide.
  - by apply sublist_cons.
  - by apply sublist_skip.
Qed.

Lemma iter_erase_first_sublist x n l :
  Nat.iter n (erase_first x) l `sublist_of` l.
Proof.
  induction n as [|n IH]; simpl; [done|].
  etrans; [apply erase_first_sublist|done].
Qed.

Lemma erase_first_length x l :
  x ∈ l → S (length (erase_first x l)) = length l.
Proof.
  intros Hin. destruct (erase_first_split x l Hin) as (l1 & l2 & -> & _ & ->).
  rewrite !length_app. simpl. lia.
Qed.

Lemma erase_first_perm x l : x ∈ l → x :: erase_first x l ≡ₚ l.
Proof.
  intros Hin. destruct (erase_first_split x l Hin) as (l1 & l2 & -> & _ & ->).
  apply Permutation_middle.
Qed.

Lemma erase_first_snoc_ne x y l :
  x ≠ y → erase_first x (l ++ [y]) = erase_first x l ++ [y].
Proof.
  intros Hne. induction l as [|z l IH]; simpl.
  - by rewrite decide_False.
  - case_decide; [done|]. by rewrite IH.
Qed.

Lemma erase_first_snoc x l :
  erase_first x (l ++ [x])
  = if decide (x ∈ l) then erase_first x l ++ [x] else l.
Proof.
  induction l as [|z l IH]; simpl.
  - rewrite decide_True by done. by destruct (decide (x ∈ [])).
  - destruct (decide (z = x)) as [->|Hz].
    + rewrite decide_True; [done|]. apply elem_of_cons. by left.
    + rewrite IH. destruct (decide (x ∈ l)) as [Hin|Hin].
      * rewrite decide_True; [done|]. apply elem_of_cons. by right.
      * rewrite decide_False; [done|].
        apply not_elem_of_cons. split; [congruence|done].
Qed.

Lemma iter_erase_first_nil x n : Nat.iter n (erase_first x) [] = [].
Proof. induction n as [|n IH]; simpl; [done|]. by rewrite IH. Qed.

Lemma iter_erase_first_cons_ne x y n l :
  y ≠ x →
  Nat.iter n (erase_first x) (y :: l) = y :: Nat.iter n (erase_first x) l.
Proof.
  intros Hne. induction n as [|n IH]; simpl; [done|].
  rewrite IH. simpl. by rewrite decide_False.
Qed.

(** Erasing the first occurrence often enough erases them all. *)
Lemma iter_erase_first_filter x n l :
  occ x l ≤ n → Nat.iter n (erase_first x) l = filter (λ y, y ≠ x) l.
Proof.
  revert n. induction l as [|y l IH]; intros n Hn.
  - apply iter_erase_first_nil.
  - rewrite occ_cons in Hn. destruct (decide (y = x)) as [->|Hy].
    + destruct n as [|n]; [lia|]. simpl.
      rewrite <- iter_erase_first_comm. simpl.
      rewrite decide_True by done. rewrite filter_cons_False by (by intros ?).
      apply IH. lia.
    + rewrite iter_erase_first_cons_ne by done.
      rewrite filter_cons_True by done. f_equal. apply IH. lia.
Qed.

End erase_more.

(** ** The identity map under registration and forgetting *)

Lemma block_run k c :
  block k c = match id2block_ c !! k with
              | Some b => Ok (b, c)
              | None => AssertFail
              end.
Proof. unfold block, mbind, M_bind, get. by destruct (id2block_ c !! k). Qed.

Lemma query_block k c :
  query (block k) c = match id2block_ c !! k with
                      | Some b => Ok b
                      | None => AssertFail
                      end.
Proof. unfold query. rewrite block_run. by destruct (id2block_ c !! k). Qed.

(** X1.  [block] stops with a hard failure exactly when the identity map
    has no entry for the label.  After [ForgetBlock b] both [block] and
    [preds] fail on the label of [b], whatever the object held and also
    when [b] branches to itself, while [block] answers as before on every
    other label. *)
Theorem ForgetBlock_makes_queries_fail (blk : BasicBlock) (c : CFG) :
  (∀ k, block k c = AssertFail ↔ id2block_ c !! k = None) ∧
  ∃ c', ForgetBlock blk c = Ok (tt, c') ∧
    block (id blk) c' = AssertFail ∧
    preds (id blk) c' = AssertFail ∧
    ∀ k, k ≠ id blk → query (block k) c' = query (block k) c.
Proof.
  split.
  - intros k. rewrite block_run. by destruct (id2block_ c !! k).
  - destruct (ForgetBlock_run blk c) as (m' & Hr & Hm').
    eexists. split; [exact Hr|]. split_and!.
    + rewrite block_run. simpl. by rewrite lookup_delete_eq.
    + rewrite preds_run. simpl. rewrite Hm'. by rewrite decide_True.
    + intros k Hk. rewrite !query_block. simpl.
      by rewrite lookup_delete_ne.
Qed.

(** X2.  After [RegisterBlock b], [block] returns [b] on the label of [b],
    in place of any block registered under that label before, and answers
    as before on every other label.  A following [ForgetBlock b] makes
    [block] fail on the label; the identity map is then the one before the
    registration without that label, so a block that [b] replaced does not
    come back. *)
Theorem RegisterBlock_block_round_trip (blk : BasicBlock) (c : CFG) :
  ∃ c1 c2, RegisterBlock blk c = Ok (tt, c1) ∧
    block (id blk) c1 = Ok (blk, c1) ∧
    (∀ k, k ≠ id blk → query (block k) c1 = query (block k) c) ∧
    ForgetBlock blk c1 = Ok (tt, c2) ∧
    block (id blk) c2 = AssertFail ∧
    id2block_ c2 = delete (id blk) (id2block_ c) ∧
    (id2block_ c !! id blk = None → id2block_ c2 = id2block_ c).
Proof.
  destruct (RegisterBlock_run blk c) as (m1 & Hr1 & _).
  eexists. destruct (ForgetBlock_run blk
    (set_label2preds m1 (set_id2block (<[id blk := blk]> (id2block_ c)) c)))
    as (m2 & Hr2 & _).
  eexists. split; [exact Hr1|]. split_and!.
  - rewrite block_run. simpl. by rewrite lookup_insert_eq.
  - intros k Hk. rewrite !query_block. simpl. by rewrite lookup_insert_ne.
  - exact Hr2.
  - rewrite block_run. simpl. by rewrite lookup_delete_eq.
  - simpl. apply delete_insert_eq.
  - intros Hnone. simpl. rewrite delete_insert_eq. by apply delete_id.
Qed.

Lemma run_op_keyed_by_id o c c' :
  run_op o c = Ok (tt, c') → keyed_by_id c → keyed_by_id c'.
Proof.
  intros Hrun Hkey k b. destruct o as [blk|blk|p s|p s]; simpl in Hrun.
  - destruct (RegisterBlock_run blk c) as (m' & Hr & _).
    rewrite Hr in Hrun. injection Hrun as <-. simpl.
    rewrite lookup_insert. case_decide; [congruence|apply Hkey].
  - destruct (ForgetBlock_run blk c) as (m' & Hr & _).
    rewrite Hr in Hrun. injection Hrun as <-. simpl.
    rewrite lookup_delete. case_decide; [done|apply Hkey].
  - rewrite AddEdge_run in Hrun. injection Hrun as <-. apply Hkey.
  - rewrite RemoveEdge_run in Hrun. injection Hrun as <-. apply Hkey.
Qed.

Lemma run_ops_keyed_by_id ops c c' :
  run_ops ops c = Ok (tt, c') → keyed_by_id c → keyed_by_id c'.
Proof.
  revert c. induction ops as [|o ops IH]; intros c Hrun Hkey.
  - by injection Hrun as <-.
  - destruct (run_op_total o c) as [c1 Ho].
    unfold run_ops in Hrun. rewrite (for_each_cons _ _ _ _ _ Ho) in Hrun.
    apply (IH c1 Hrun). by apply (run_op_keyed_by_id o c).
Qed.

(** X3.  Whatever blocks are registered and forgotten and whatever edges
    are added and removed, the block that [block] returns for a label
    carries that label: the identity map stays keyed by the blocks' own
    labels. *)
Theorem block_returns_block_of_label
    (ops : list op) (c c' : CFG) (k : label) (b : BasicBlock) :
  keyed_by_id c →
  run_ops ops c = Ok (tt, c') →
  block k c' = Ok (b, c') →
  id b = k.
Proof.
  intros Hkey Hrun Hb. rewrite block_run in Hb.
  destruct (id2block_ c' !! k) as [b'|] eqn:Hk; [|done].
  injection Hb as ->.
  by apply (run_ops_keyed_by_id ops c c' Hrun Hkey k b).
Qed.

Lemma block_returns_block_of_label_witness :
  keyed_by_id empty_cfg ∧
  run_ops ParallelEdge.calls empty_cfg = Ok (tt, ParallelEdge.cfg) ∧
  block 2 ParallelEdge.cfg = Ok (ParallelEdge.b2, ParallelEdge.cfg) ∧
  id ParallelEdge.b2 = 2%N.
Proof.
  assert (Hkey : keyed_by_id empty_cfg) by by_computation.
  split_and!; [exact Hkey|reflexivity|reflexivity|].
  apply (block_returns_block_of_label
           ParallelEdge.calls empty_cfg ParallelEdge.cfg);
    [exact Hkey|reflexivity|reflexivity].
Defined.

(** ** The order of the mutations *)

Ltac map_lookups :=
  repeat first
    [ rewrite lookup_alter_eq | rewrite lookup_insert_eq
    | rewrite lookup_delete_eq
    | rewrite lookup_alter_ne by done | rewrite lookup_insert_ne by done
    | rewrite lookup_delete_ne by done ].

Section commute.
Implicit Types (c : CFG) (p q s t k : label) (l : list label).

Lemma set_label2preds_twice m m' c :
  set_label2preds m (set_label2preds m' c) = set_label2preds m c.
Proof. done. Qed.

Lemma RemoveEdge_RemoveEdge_run p s q t c :
  (RemoveEdge p s ;; RemoveEdge q t) c
  = Ok (tt, set_label2preds
              (alter (erase_first q) t
                 (alter (erase_first p) s (label2preds_ c))) c).
Proof.
  rewrite (bind_run _ _ _ _ _ (RemoveEdge_run p s c)).
  by rewrite RemoveEdge_run.
Qed.

Lemma AddEdge_RemoveEdge_run p s q t c :
  (AddEdge p s ;; RemoveEdge q t) c
  = Ok (tt, set_label2preds
              (alter (erase_first q) t
                 (<[s := pred_list c s ++ [p]]> (label2preds_ c))) c).
Proof.
  rewrite (bind_run _ _ _ _ _ (AddEdge_run p s c)).
  by rewrite RemoveEdge_run.
Qed.

Lemma RemoveEdge_AddEdge_run p s q t c :
  (RemoveEdge q t ;; AddEdge p s) c
  = Ok (tt, set_label2preds
              (<[s := default [] (alter (erase_first q) t (label2preds_ c)
                                    !! s) ++ [p]]>
                 (alter (erase_first q) t (label2preds_ c))) c).
Proof.
  rewrite (bind_run _ _ _ _ _ (RemoveEdge_run q t c)).
  by rewrite AddEdge_run.
Qed.

Lemma AddEdge_AddEdge_run p s q t c :
  (AddEdge p s ;; AddEdge q t) c
  = Ok (tt, set_label2preds
              (<[t := default [] (<[s := pred_list c s ++ [p]]>
                                    (label2preds_ c) !! t) ++ [q]]>
                 (<[s := pred_list c s ++ [p]]> (label2preds_ c))) c).
Proof.
  rewrite (bind_run _ _ _ _ _ (AddEdge_run p s c)).
  by rewrite AddEdge_run.
Qed.

End commute.

(** X4.  The order in which two blocks are forgotten does not matter:
    [ForgetBlock b1] followed by [ForgetBlock b2] leaves the same object as
    [ForgetBlock b2] followed by [ForgetBlock b1], also when one of the
    blocks branches to the other. *)
Theorem ForgetBlock_order_irrelevant (b1 b2 : BasicBlock) (c : CFG) :
  (ForgetBlock b1 ;; ForgetBlock b2) c = (ForgetBlock b2 ;; ForgetBlock b1) c.
Proof.
  destruct (ForgetBlock_run b1 c) as (m1 & Hr1 & Hm1).
  destruct (ForgetBlock_run b2 c) as (m2 & Hr2 & Hm2).
  rewrite (bind_run _ _ _ _ _ Hr1), (bind_run _ _ _ _ _ Hr2).
  destruct (ForgetBlock_run b2
    (set_label2preds m1 (set_id2block (delete (id b1) (id2block_ c)) c)))
    as (m12 & -> & Hm12).
  destruct (ForgetBlock_run b1
    (set_label2preds m2 (set_id2block (delete (id b2) (id2block_ c)) c)))
    as (m21 & -> & Hm21).
  simpl in *. unfold set_label2preds, set_id2block. simpl.
  do 2 f_equal. f_equal.
  - apply map_eq. intros k. rewrite Hm12, Hm21, Hm1, Hm2.
    destruct (decide (k = id b1)), (decide (k = id b2)); try done.
    destruct (label2preds_ c !! k) as [l|]; [|done]. simpl.
    by rewrite iter_erase_first_swap.
  - apply delete_delete.
Qed.

(** X5.  Two calls of [RemoveEdge] can be swapped, whichever edges they
    name: erasing the first occurrence of one predecessor does not change
    which occurrence of another is the first. *)
Theorem RemoveEdge_RemoveEdge_commute (p s q t : label) (c : CFG) :
  (RemoveEdge p s ;; RemoveEdge q t) c = (RemoveEdge q t ;; RemoveEdge p s) c.
Proof.
  rewrite !RemoveEdge_RemoveEdge_run. do 3 f_equal.
  apply map_eq. intros k.
  destruct (decide (s = k)) as [Hs|Hs], (decide (t = k)) as [Ht|Ht];
    subst; map_lookups; try done.
  destruct (label2preds_ c !! k) as [l|]; [|done]. simpl.
  by rewrite erase_first_comm.
Qed.

(** X6.  [AddEdge p s] and [RemoveEdge q t] can be swapped when they name
    different predecessors or different successors. *)
Theorem AddEdge_RemoveEdge_commute (p s q t : label) (c : CFG) :
  p ≠ q ∨ s ≠ t →
  (AddEdge p s ;; RemoveEdge q t) c = (RemoveEdge q t ;; AddEdge p s) c.
Proof.
  intros Hne. rewrite AddEdge_RemoveEdge_run, RemoveEdge_AddEdge_run.
  do 3 f_equal. apply map_eq. intros k. unfold pred_list.
  destruct (decide (s = k)) as [Hs|Hs], (decide (t = k)) as [Ht|Ht];
    subst; map_lookups; try done.
  destruct Hne as [Hpq|?]; [|done].
  destruct (label2preds_ c !! k) as [l|]; simpl.
  - f_equal. by apply erase_first_snoc_ne.
  - by rewrite decide_False by congruence.
Qed.

Lemma AddEdge_RemoveEdge_commute_witness :
  (1%N ≠ 3%N ∨ 2%N ≠ 2%N) ∧
  (AddEdge 1 2 ;; RemoveEdge 3 2) ParallelEdge.cfg
  = (RemoveEdge 3 2 ;; AddEdge 1 2) ParallelEdge.cfg.
Proof.
  assert (H : (1%N ≠ 3%N ∨ 2%N ≠ 2%N)) by (by left).
  split; [exact H|].
  apply (AddEdge_RemoveEdge_commute 1 2 3 2 ParallelEdge.cfg H).
Defined.

(** X7.  Two calls of [AddEdge] can be swapped exactly when they name
    different successors or the same predecessor: on one list the order of
    the calls is the order of the entries. *)
Theorem AddEdge_AddEdge_commute_iff (p s q t : label) (c : CFG) :
  (AddEdge p s ;; AddEdge q t) c = (AddEdge q t ;; AddEdge p s) c
  ↔ s ≠ t ∨ p = q.
Proof.
  rewrite !AddEdge_AddEdge_run. unfold pred_list. split.
  - intros Heq. destruct (decide (s = t)) as [->|Hst]; [right|by left].
    injection Heq as Heq.
    apply (f_equal (λ m : gmap label (list label), m !! t)) in Heq.
    rewrite !lookup_insert_eq in Heq. simpl in Heq.
    injection Heq as Heq. apply app_inj_tail in Heq as [Heq _].
    by apply app_inj_tail in Heq as [_ ?].
  - intros Hor. do 3 f_equal. destruct (decide (s = t)) as [->|Hst].
    + destruct Hor as [?| ->]; done.
    + rewrite !lookup_insert_ne by done.
      by apply insert_insert_ne.
Qed.

(** ** Adding and removing the same edge *)

(** X8.  [AddEdge p s] followed by [RemoveEdge p s] keeps the entries of the
    predecessor list of [s] but not always their order: the occurrence
    erased is the first one, not the one just appended.  When the list did
    not hold [p] the object is as before; when it did, the first [p] has
    moved to the end; and when [s] had no list it now has an empty one, so
    [preds s], which failed before, returns. *)
Theorem AddEdge_then_RemoveEdge (p s : label) (c : CFG) :
  ∃ c', (AddEdge p s ;; RemoveEdge p s) c = Ok (tt, c') ∧
    id2block_ c' = id2block_ c ∧
    (∀ k, k ≠ s → label2preds_ c' !! k = label2preds_ c !! k) ∧
    pred_list c' s ≡ₚ pred_list c s ∧
    (is_Some (label2preds_ c !! s) → (p ∉ pred_list c s) → c' = c) ∧
    (∀ l1 l2, pred_list c s = l1 ++ p :: l2 → (p ∉ l1) →
       label2preds_ c' !! s = Some (l1 ++ l2 ++ [p])) ∧
    (label2preds_ c !! s = None →
       preds s c = AssertFail ∧ preds s c' = Ok ([], c')).
Proof.
  eexists. split; [apply AddEdge_RemoveEdge_run|]. simpl.
  assert (Hs : ∀ m : gmap label (list label),
    alter (erase_first p) s (<[s := pred_list c s ++ [p]]> m) !! s
    = Some (if decide (p ∈ pred_list c s)
            then erase_first p (pred_list c s) ++ [p] else pred_list c s)).
  { intros m. map_lookups. simpl. by rewrite erase_first_snoc. }
  split_and!; [done| | | | |].
  - intros k Hk. by map_lookups.
  - unfold pred_list at 1. simpl. rewrite Hs. simpl.
    case_decide as Hin; [|done].
    rewrite <- (erase_first_perm p (pred_list c s) Hin) at 2.
    by rewrite Permutation_app_comm.
  - intros [l Hl] Hn.
    transitivity (set_label2preds (label2preds_ c) c);
      [|apply set_label2preds_id]. f_equal.
    apply map_eq. intros k. destruct (decide (k = s)) as [->|Hk].
    + rewrite Hs, decide_False by done. unfold pred_list. by rewrite Hl.
    + by map_lookups.
  - intros l1 l2 Hl Hn. rewrite Hs, Hl.
    rewrite decide_True by (apply elem_of_app; right; apply elem_of_cons;
                              by left).
    f_equal. rewrite erase_first_middle by done. by rewrite <- app_assoc.
  - intros Hnone. rewrite !preds_run. simpl. rewrite Hnone, Hs.
    unfold pred_list. by rewrite Hnone.
Qed.

(** ** Removing edges *)

(** X9.  [RemoveEdge p s] leaves the object exactly as it is if and only
    if the predecessor list of [s] does not hold [p] (no list counts as
    an empty one); otherwise that list gets shorter by exactly one
    entry. *)
Theorem RemoveEdge_unchanged_iff (p s : label) (c : CFG) :
  (RemoveEdge p s c = Ok (tt, c) ↔ p ∉ pred_list c s) ∧
  (p ∈ pred_list c s →
   ∃ c', RemoveEdge p s c = Ok (tt, c') ∧
     S (length (pred_list c' s)) = length (pred_list c s)).
Proof.
  rewrite RemoveEdge_run. unfold pred_list. split; [split|].
  - intros Heq Hin. injection Heq as Heq.
    apply (f_equal (λ c, label2preds_ c !! s)) in Heq. simpl in Heq.
    rewrite lookup_alter_eq in Heq.
    destruct (label2preds_ c !! s) as [l|]; simpl in *;
      [|by apply elem_of_nil in Hin].
    injection Heq as Heq. apply erase_first_length in Hin.
    rewrite Heq in Hin. lia.
  - intros Hn. do 2 f_equal.
    transitivity (set_label2preds (label2preds_ c) c);
      [|apply set_label2preds_id]. f_equal.
    apply map_eq. intros k. destruct (decide (k = s)) as [->|Hk].
    + rewrite lookup_alter_eq.
      destruct (label2preds_ c !! s) as [l|]; [|done]. simpl in *.
      by rewrite erase_first_notin.
    + by rewrite lookup_alter_ne.
  - intros Hin. eexists. split; [done|]. simpl.
    rewrite lookup_alter_eq.
    destruct (label2preds_ c !! s) as [l|]; simpl in *;
      [|by apply elem_of_nil in Hin].
    by apply erase_first_length.
Qed.

(** X10.  [n] calls of [RemoveEdge p s] erase the first [n] occurrences of
    [p] from the predecessor list of [s] and touch nothing else; once [n]
    reaches the number of occurrences the list holds no [p] any more, the
    other entries are all there in their order, and further calls change
    nothing. *)
Theorem RemoveEdge_repeated (p s : label) (n : nat) (c : CFG) :
  ∃ c', for_each (replicate n s) (RemoveEdge p) c = Ok (tt, c') ∧
    label2preds_ c' !! s
      = Nat.iter n (erase_first p) <$> label2preds_ c !! s ∧
    (∀ k, k ≠ s → label2preds_ c' !! k = label2preds_ c !! k) ∧
    id2block_ c' = id2block_ c ∧
    occ p (pred_list c' s) = occ p (pred_list c s) - n ∧
    (occ p (pred_list c s) ≤ n →
       label2preds_ c' !! s
         = filter (λ q, q ≠ p) <$> label2preds_ c !! s ∧
       RemoveEdge p s c' = Ok (tt, c')).
Proof.
  destruct (for_each_RemoveEdge p (replicate n s) c) as (m' & Hrun & Hm').
  assert (Hs : m' !! s = Nat.iter n (erase_first p) <$> label2preds_ c !! s).
  { rewrite Hm', occ_replicate. by rewrite decide_True. }
  eexists. split; [exact Hrun|]. simpl. unfold pred_list. simpl.
  split_and!; [done| |done| |].
  - intros k Hk. rewrite Hm', occ_replicate, decide_False by done.
    simpl. by destruct (label2preds_ c !! k).
  - rewrite Hs. destruct (label2preds_ c !! s) as [l|]; simpl; [|done].
    apply occ_iter_erase_eq.
  - intros Hle. rewrite Hs. split.
    + destruct (label2preds_ c !! s) as [l|]; simpl in *; [|done].
      by rewrite iter_erase_first_filter.
    + rewrite RemoveEdge_run. simpl. rewrite set_label2preds_twice.
      do 3 f_equal.
      apply map_eq. intros k. destruct (decide (k = s)) as [->|Hk].
      * rewrite lookup_alter_eq, Hs.
        destruct (label2preds_ c !! s) as [l|]; simpl in *; [|done].
        f_equal. apply erase_first_notin, occ_zero.
        rewrite occ_iter_erase_eq. lia.
      * by rewrite lookup_alter_ne.
Qed.

(** X11.  [RemoveSuccessorEdges bb] only takes entries out: it creates and
    deletes no predecessor list, leaves the identity map alone (the block
    stays registered), and every predecessor list afterwards is the one
    before with some occurrences of [bb] left out, the other entries in
    their order; the list of a label the terminator does not name is
    unchanged.  Unlike [ForgetBlock] it also shortens the list of [bb]
    itself when [bb] branches to itself. *)
Theorem RemoveSuccessorEdges_only_shrinks (bb : BasicBlock) (c : CFG) :
  ∃ c', RemoveSuccessorEdges bb c = Ok (tt, c') ∧
    id2block_ c' = id2block_ c ∧
    dom (label2preds_ c') = dom (label2preds_ c) ∧
    (∀ k, label2preds_ c' !! k
          = Nat.iter (occ k (succ_labels bb)) (erase_first (id bb))
              <$> label2preds_ c !! k) ∧
    (∀ k, pred_list c' k `sublist_of` pred_list c k) ∧
    (∀ k q, q ≠ id bb → occ q (pred_list c' k) = occ q (pred_list c k)) ∧
    (∀ k, k ∉ succ_labels bb →
          label2preds_ c' !! k = label2preds_ c !! k).
Proof.
  destruct (for_each_RemoveEdge (id bb) (succ_labels bb) c)
    as (m' & Hrun & Hm').
  eexists. split; [exact Hrun|]. simpl. unfold pred_list. simpl.
  split_and!; [done| |done| | |].
  - apply set_eq. intros k. rewrite !elem_of_dom, Hm'.
    by rewrite fmap_is_Some.
  - intros k. rewrite Hm'.
    destruct (label2preds_ c !! k) as [l|]; simpl; [|done].
    apply iter_erase_first_sublist.
  - intros k q Hq. rewrite Hm'.
    destruct (label2preds_ c !! k) as [l|]; simpl; [|done].
    by apply occ_iter_erase_ne.
  - intros k Hk. rewrite Hm'. apply occ_zero in Hk. rewrite Hk. simpl.
    by destruct (label2preds_ c !! k).
Qed.

(** ** Adding edges *)

Lemma for_each_AddEdge_into ps s c :
  for_each ps (λ p, AddEdge p s) c
  = Ok (tt, match ps with
            | [] => c
            | _ => set_label2preds
                     (<[s := pred_list c s ++ ps]> (label2preds_ c)) c
            end).
Proof.
  revert c. induction ps as [|p ps IH]; intros c; [done|].
  rewrite (for_each_cons (λ p, AddEdge p s) p ps c _ (AddEdge_run p s c)).
  rewrite IH.
  do 2 f_equal. unfold pred_list. destruct ps as [|p' ps]; [done|].
  simpl. rewrite lookup_insert_eq, insert_insert_eq. simpl.
  by rewrite <- app_assoc.
Qed.

(** X12.  Predecessor lists record the order of the calls: after
    [AddEdge p1 s], ..., [AddEdge pn s] the predecessor list of [s] is the
    one before followed by [p1], ..., [pn], duplicates included, and no
    other list and no identity-map entry has changed. *)
Theorem AddEdge_keeps_call_order (ps : list label) (s : label) (c : CFG) :
  ∃ c', for_each ps (λ p, AddEdge p s) c = Ok (tt, c') ∧
    pred_list c' s = pred_list c s ++ ps ∧
    (ps ≠ [] → preds s c' = Ok (pred_list c s ++ ps, c')) ∧
    (∀ k, k ≠ s → label2preds_ c' !! k = label2preds_ c !! k) ∧
    id2block_ c' = id2block_ c.
Proof.
  eexists. split; [apply for_each_AddEdge_into|].
  destruct ps as [|p ps].
  - split_and!; [by rewrite app_nil_r|done|done|done].
  - split_and!; [| |by intros k Hk; simpl; rewrite lookup_insert_ne|done].
    + unfold pred_list at 1. simpl. by rewrite lookup_insert_eq.
    + intros _. rewrite preds_run. simpl. by rewrite lookup_insert_eq.
Qed.

(** ** Forgetting a block twice *)

(** X13.  When no predecessor list holds [b] more often than [b]'s
    terminator names its block, a second [ForgetBlock b] changes nothing:
    the first call has taken every occurrence of [b] out. *)
Theorem ForgetBlock_twice_in_sync (blk : BasicBlock) (c : CFG) :
  edges_in_sync c blk →
  ∃ c', ForgetBlock blk c = Ok (tt, c') ∧ ForgetBlock blk c' = Ok (tt, c').
Proof.
  intros Hsync. destruct (ForgetBlock_run blk c) as (m1 & Hr1 & Hm1).
  eexists. split; [exact Hr1|].
  destruct (ForgetBlock_run blk
    (set_label2preds m1 (set_id2block (delete (id blk) (id2block_ c)) c)))
    as (m2 & -> & Hm2).
  simpl in *. unfold set_label2preds, set_id2block. simpl.
  do 2 f_equal. f_equal; [|apply delete_delete_eq].
  apply map_eq. intros k. rewrite Hm2, Hm1.
  case_decide as Hk; [done|].
  destruct (label2preds_ c !! k) as [l|] eqn:Hl; [|done]. simpl. f_equal.
  assert (Hgone : id blk ∉ Nat.iter (occ k (succ_labels blk))
                             (erase_first (id blk)) l).
  { apply occ_zero. rewrite occ_iter_erase_eq.
    destruct (Hsync k l Hl) as [?|Hle]; [done|lia]. }
  revert Hgone. generalize (Nat.iter (occ k (succ_labels blk))
                              (erase_first (id blk)) l).
  intros l' Hgone.
  induction (occ k (succ_labels blk)) as [|n IH]; simpl; [done|].
  rewrite IH. by apply erase_first_notin.
Qed.

Lemma ForgetBlock_twice_in_sync_witness :
  edges_in_sync ParallelEdge.synced ParallelEdge.b1 ∧
  ∃ c', ForgetBlock ParallelEdge.b1 ParallelEdge.synced = Ok (tt, c') ∧
    ForgetBlock ParallelEdge.b1 c' = Ok (tt, c').
Proof.
  assert (Hsync : edges_in_sync ParallelEdge.synced ParallelEdge.b1)
    by by_computation.
  split; [exact Hsync|].
  apply (ForgetBlock_twice_in_sync ParallelEdge.b1 ParallelEdge.synced Hsync).
Defined.

(** ** Forgetting a registered block *)

(** X15.  When blocks with pairwise distinct labels and no merge
    declaration are registered on an empty edge table, each predecessor
    list holds a block as often as its terminator names the list's block,
    and [ForgetBlock] of any of them leaves no predecessor list showing
    it. *)
Theorem registered_blocks_forget_cleanly
    (fn : list BasicBlock) (blk : BasicBlock) (c : CFG) :
  label2preds_ c = ∅ →
  NoDup (id <$> fn) →
  Forall (λ b, merge_label b = None ∧ continue_label b = None) fn →
  blk ∈ fn →
  ∃ c1 c2, for_each fn RegisterBlock c = Ok (tt, c1) ∧
    (∀ b s, b ∈ fn →
       occ (id b) (pred_list c1 s) = occ s (succ_labels b)) ∧
    ForgetBlock blk c1 = Ok (tt, c2) ∧
    ∀ s l, preds s c2 = Ok (l, c2) → id blk ∉ l.
Proof.
  intros Hempty Hnd Hplain Hblk.
  destruct (register_all_pred_list fn c) as (c1 & Hrun & _ & Hl & _ & _).
  assert (Hocc : ∀ b s, b ∈ fn →
    occ (id b) (pred_list c1 s) = occ s (succ_labels b)).
  { intros b s Hb. rewrite Hl. unfold pred_list at 1.
    rewrite Hempty, lookup_empty. simpl.
    rewrite (occ_incoming fn s b Hnd Hb).
    rewrite Forall_forall in Hplain. destruct (Hplain b Hb) as [Hm Hc].
    unfold target_labels. rewrite Hm, Hc. simpl. by rewrite app_nil_r. }
  destruct (ForgetBlock_run blk c1) as (m2 & Hr2 & Hm2).
  exists c1. eexists. split_and!; [exact Hrun|exact Hocc|exact Hr2|].
  intros s l. rewrite preds_run. simpl. rewrite Hm2.
  case_decide as Hs; [done|].
  destruct (label2preds_ c1 !! s) as [l0|] eqn:Hl0; [|done].
  simpl. intros [= <-]. apply occ_zero. rewrite occ_iter_erase_eq.
  specialize (Hocc blk s Hblk). unfold pred_list in Hocc.
  rewrite Hl0 in Hocc. simpl in Hocc. lia.
Qed.

Lemma registered_blocks_forget_cleanly_witness :
  label2preds_ empty_cfg = ∅ ∧
  NoDup (id <$> [ParallelEdge.b1; ParallelEdge.b2]) ∧
  ∃ c1 c2,
    for_each [ParallelEdge.b1; ParallelEdge.b2] RegisterBlock empty_cfg
      = Ok (tt, c1) ∧
    ForgetBlock ParallelEdge.b1 c1 = Ok (tt, c2) ∧
    ∀ s l, preds s c2 = Ok (l, c2) → 1%N ∉ l.
Proof.
  assert (Hnd : NoDup (id <$> [ParallelEdge.b1; ParallelEdge.b2]))
    by by_computation.
  split_and!; [reflexivity|exact Hnd|].
  destruct (registered_blocks_forget_cleanly
              [ParallelEdge.b1; ParallelEdge.b2] ParallelEdge.b1 empty_cfg)
    as (c1 & c2 & Hrun & _ & Hforget & Hpreds).
  - reflexivity.
  - exact Hnd.
  - repeat constructor.
  - apply elem_of_cons. by left.
  - exists c1, c2. split_and!; [exact Hrun|exact Hforget|exact Hpreds].
Defined.

(** ** The pseudo blocks are told apart by address *)

(** With nothing registered the two pseudo blocks hold the same label and
    nothing else, and still each predicate accepts its own member only. *)
Example pseudo_blocks_differ_by_address :
  query pseudo_entry_block empty_cfg = query pseudo_exit_block empty_cfg ∧
  query (IsPseudoEntryBlock pseudo_entry_address) empty_cfg = Ok true ∧
  query (IsPseudoEntryBlock pseudo_exit_address) empty_cfg = Ok false ∧
  query (IsPseudoExitBlock pseudo_entry_address) empty_cfg = Ok false ∧
  query (IsPseudoExitBlock pseudo_exit_address) empty_cfg = Ok true.
Proof. by split_and!. Qed.
